(** * Portfolio site script: a shallow embedding of [src/script.js]

  The script wires DOM events to DOM mutations.  Each component class of the
  script ([Toast], [SidebarManager], [TestimonialCarousel], [ImageModal],
  [ContactForm], [TabManager]) is embedded as a module holding a record for
  the part of the page the component reads or writes, and one function per
  method, with explicit state passing.  Part I holds the definitions, in
  the order of the source; Part II holds the lemmas and theorems. *)

From Stdlib Require Import ZArith NArith List String Ascii Bool Lia DecimalString.
From stdpp Require Import base list.

Import ListNotations.
Local Open Scope string_scope.
Local Open Scope list_scope.

(* ===================================================================== *)
(** * Part I: definitions *)
(* ===================================================================== *)

(** ** JavaScript strings

  A JavaScript string is a sequence of UTF-16 code units.  Values typed by
  the user are modelled as lists of code units; the literals of the script
  itself (class names, messages, attribute names) are ASCII and are kept as
  [string]. *)
Module Js.

Definition jsstring := list N.

Definition of_ascii (s : string) : jsstring :=
  List.map N_of_ascii (list_ascii_of_string s).

(** WhiteSpace and LineTerminator code units of ECMAScript: what
    [String.prototype.trim] strips and what the class escape [\s] matches. *)
Definition isWhiteSpace (c : N) : bool :=
  ((9 <=? c) && (c <=? 13) ||
   (c =? 32) || (c =? 160) || (c =? 5760) ||
   (8192 <=? c) && (c <=? 8202) ||
   (c =? 8232) || (c =? 8233) || (c =? 8239) || (c =? 8287) ||
   (c =? 12288) || (c =? 65279))%N.

Fixpoint trimStart (s : jsstring) : jsstring :=
  match s with
  | [] => []
  | c :: s' => if isWhiteSpace c then trimStart s' else s
  end.

Definition trimEnd (s : jsstring) : jsstring := rev (trimStart (rev s)).

Definition trim (s : jsstring) : jsstring := trimEnd (trimStart s).

(** A boolean passed where a DOM string is expected is converted with
    [String(b)]. *)
Definition string_of_bool (b : bool) : string := if b then "true" else "false".

End Js.

(** ** Regular expressions

  The fragment of the regular-expression language the script uses:
  character classes, concatenation and [+].  A pattern enclosed in [^] and
  [$] (no flags) is tested against the whole input, so [RegExp.test] is
  membership of the input in the language of the pattern; it is computed
  with derivatives. *)
Module Regex.

Inductive regex : Type :=
| Void
| Eps
| Class (p : N -> bool)
| Cat (r1 r2 : regex)
| Alt (r1 r2 : regex)
| Star (r : regex).

(** [r+] *)
Definition Plus (r : regex) : regex := Cat r (Star r).

Inductive matches : regex -> list N -> Prop :=
| m_eps : matches Eps []
| m_class p c : p c = true -> matches (Class p) [c]
| m_cat r1 r2 s1 s2 : matches r1 s1 -> matches r2 s2 -> matches (Cat r1 r2) (s1 ++ s2)
| m_alt_l r1 r2 s : matches r1 s -> matches (Alt r1 r2) s
| m_alt_r r1 r2 s : matches r2 s -> matches (Alt r1 r2) s
| m_star_nil r : matches (Star r) []
| m_star_app r s1 s2 : matches r s1 -> matches (Star r) s2 -> matches (Star r) (s1 ++ s2).

Fixpoint nullable (r : regex) : bool :=
  match r with
  | Void => false
  | Eps => true
  | Class _ => false
  | Cat r1 r2 => nullable r1 && nullable r2
  | Alt r1 r2 => nullable r1 || nullable r2
  | Star _ => true
  end.

Fixpoint deriv (c : N) (r : regex) : regex :=
  match r with
  | Void => Void
  | Eps => Void
  | Class p => if p c then Eps else Void
  | Cat r1 r2 =>
      if nullable r1 then Alt (Cat (deriv c r1) r2) (deriv c r2)
      else Cat (deriv c r1) r2
  | Alt r1 r2 => Alt (deriv c r1) (deriv c r2)
  | Star r1 => Cat (deriv c r1) (Star r1)
  end.

Fixpoint test (r : regex) (s : list N) : bool :=
  match s with
  | [] => nullable r
  | c :: s' => test (deriv c r) s'
  end.

End Regex.

(** ** DOM elements

  The part of an element the script touches: its class list (an ordered set
  of tokens), its content attributes and its text. *)
Module Dom.

Definition DOMTokenList := list string.

Definition contains (cl : DOMTokenList) (t : string) : bool :=
  existsb (String.eqb t) cl.

Definition add (t : string) (cl : DOMTokenList) : DOMTokenList :=
  if contains cl t then cl else cl ++ [t].

Definition remove (t : string) (cl : DOMTokenList) : DOMTokenList :=
  List.filter (fun x => negb (String.eqb t x)) cl.

(** [classList.toggle(t)] *)
Definition toggle (t : string) (cl : DOMTokenList) : DOMTokenList :=
  if contains cl t then remove t cl else add t cl.

(** [classList.toggle(t, force)] *)
Definition toggle_force (t : string) (force : bool) (cl : DOMTokenList) : DOMTokenList :=
  if force then add t cl else remove t cl.

Definition attributes := list (string * string).

Fixpoint get (name : string) (a : attributes) : option string :=
  match a with
  | [] => None
  | (n, v) :: a' => if String.eqb n name then Some v else get name a'
  end.

Fixpoint set (name value : string) (a : attributes) : attributes :=
  match a with
  | [] => [(name, value)]
  | (n, v) :: a' =>
      if String.eqb n name then (n, value) :: a' else (n, v) :: set name value a'
  end.

Definition del (name : string) (a : attributes) : attributes :=
  List.filter (fun nv => negb (String.eqb (fst nv) name)) a.

Record Element := mkElement {
  classList : DOMTokenList;
  attrs : attributes;
  textContent : string
}.

Definition getAttribute (name : string) (e : Element) : option string :=
  get name (attrs e).

Definition setAttribute (name value : string) (e : Element) : Element :=
  mkElement (classList e) (set name value (attrs e)) (textContent e).

Definition removeAttribute (name : string) (e : Element) : Element :=
  mkElement (classList e) (del name (attrs e)) (textContent e).

Definition withClasses (f : DOMTokenList -> DOMTokenList) (e : Element) : Element :=
  mkElement (f (classList e)) (attrs e) (textContent e).

Definition classAdd (t : string) : Element -> Element := withClasses (add t).
Definition classRemove (t : string) : Element -> Element := withClasses (remove t).
Definition classToggle (t : string) : Element -> Element := withClasses (toggle t).
Definition classToggleForce (t : string) (force : bool) : Element -> Element :=
  withClasses (toggle_force t force).
Definition hasClass (t : string) (e : Element) : bool := contains (classList e) t.

(** [el.className = s] for a single-token [s] *)
Definition setClassName (s : string) (e : Element) : Element :=
  mkElement [s] (attrs e) (textContent e).

Definition setTextContent (s : string) (e : Element) : Element :=
  mkElement (classList e) (attrs e) s.

End Dom.

(** ** The shared [state] and [config] objects *)

Record AppState := mkAppState {
  currentTestimonial : Z;
  (** the period of the running interval timer, [None] when there is none *)
  carouselInterval : option Z;
  (** the delay of the pending resize timer, [None] when there is none *)
  resizeTimeout : option Z;
  isMobile : bool
}.

Module config.
Definition carouselInterval : Z := 5000.
Definition resizeDelay : Z := 250.
Definition scrollThreshold : Z := 300.
Definition toastDuration : Z := 3000.
End config.

(** ** Toast notification system *)
Module Toast.
Import Dom.

Record Toast := mkToast {
  element : option Element;
  (** the delay of the pending auto-hide timer, if one was scheduled *)
  timeout : option Z
}.

Definition hide (t : Toast) : Toast :=
  match element t with
  | None => t
  | Some e =>
      mkToast
        (Some (classRemove "toast-warning"
                (classRemove "toast-error"
                  (classRemove "toast-success" (classRemove "show" e)))))
        (timeout t)
  end.

Definition show (message type : string) (t : Toast) : Toast :=
  match element t with
  | None => t
  | Some _ =>
      let t1 := hide t in
      match element t1 with
      | None => t1
      | Some e =>
          let e := setClassName "toast" e in
          let e := setTextContent message e in
          let e := classAdd (String.append "toast-" type) (classAdd "show" e) in
          let e := setAttribute "aria-live" "polite" e in
          let e := setAttribute "role" "status" e in
          mkToast (Some e) (Some config.toastDuration)
      end
  end.

(** [show(message)] with the default severity *)
Definition show_default (message : string) : Toast -> Toast := show message "success".

End Toast.

(** ** Sidebar management *)
Module Sidebar.
Import Dom.

Inductive Focus := FocusBody | FocusFirstNavLink | FocusHamburger.

Record World := mkWorld {
  st : AppState;
  sidebar : option Element;
  hamburger : option Element;
  overlay : option Element;
  isOpen : bool;
  (** whether [sidebar.querySelector('.nav-link')] finds a link, and one
      that takes the focus when [focus()] is called on it *)
  hasNavLink : bool;
  (** [document.body.style.overflow] *)
  bodyOverflow : string;
  activeElement : Focus;
  (** whether the hamburger control takes the focus when [focus()] is
      called on it: a button does, an element that is not focusable does
      not *)
  hamburgerTakesFocus : bool
}.

Definition open (w : World) : World :=
  match sidebar w, overlay w with
  | Some sb, Some ov =>
      mkWorld (st w)
        (Some (classAdd "sidebar-expanded" sb))
        (option_map (classAdd "active") (hamburger w))
        (Some (classAdd "active" ov))
        true
        (hasNavLink w)
        "hidden"
        (if hasNavLink w then FocusFirstNavLink else activeElement w)
        (hamburgerTakesFocus w)
  | _, _ => w
  end.

Definition close (w : World) : World :=
  match sidebar w, overlay w with
  | Some sb, Some ov =>
      mkWorld (st w)
        (Some (classRemove "sidebar-expanded" sb))
        (option_map (classRemove "active") (hamburger w))
        (Some (classRemove "active" ov))
        false
        (hasNavLink w)
        ""
        (match hamburger w with
         | Some _ => if hamburgerTakesFocus w then FocusHamburger else activeElement w
         | None => activeElement w
         end)
        (hamburgerTakesFocus w)
  | _, _ => w
  end.

Definition toggleDesktop (w : World) : World :=
  match sidebar w with
  | None => w
  | Some sb =>
      mkWorld (st w) (Some (classToggle "collapsed" sb)) (hamburger w) (overlay w)
        (isOpen w) (hasNavLink w) (bodyOverflow w) (activeElement w) (hamburgerTakesFocus w)
  end.

Definition toggle (w : World) : World :=
  if isMobile (st w) then
    (if isOpen w then close w else open w)
  else toggleDesktop w.

Definition withSidebar (f : Element -> Element) (w : World) : World :=
  mkWorld (st w) (option_map f (sidebar w)) (hamburger w) (overlay w)
    (isOpen w) (hasNavLink w) (bodyOverflow w) (activeElement w) (hamburgerTakesFocus w).

Definition openSidebar (w : World) : World :=
  match sidebar w with
  | None => w
  | Some _ =>
      let w := withSidebar (classRemove "collapsed") w in
      if isMobile (st w) then withSidebar (classAdd "sidebar-expanded") w else w
  end.

Definition closeSidebar (w : World) : World :=
  match sidebar w with
  | None => w
  | Some _ =>
      withSidebar (classRemove "sidebar-expanded")
        (withSidebar (classAdd "collapsed") w)
  end.

Definition setInitialState (w : World) : World :=
  if isMobile (st w) then closeSidebar w else openSidebar w.

(** The body of the debounced resize callback, run with the width of the
    window at the time the timer fires. *)
Definition resizeSettled (innerWidth : Z) (w : World) : World :=
  let m := (innerWidth <? 768)%Z in
  let s := st w in
  let w := mkWorld (mkAppState (currentTestimonial s) (carouselInterval s) (resizeTimeout s) m)
             (sidebar w) (hamburger w) (overlay w) (isOpen w) (hasNavLink w)
             (bodyOverflow w) (activeElement w) (hamburgerTakesFocus w) in
  let w := if m && isOpen w then close w else w in
  if negb m then
    mkWorld (st w) (sidebar w) (hamburger w)
      (option_map (classRemove "active") (overlay w))
      false (hasNavLink w) "" (activeElement w) (hamburgerTakesFocus w)
  else w.

(** *** Vocabulary of the properties *)

(** Whether the sidebar is collapsed (the state the hamburger control
    toggles on the desktop viewport class). *)
Definition collapsed (w : World) : bool :=
  match sidebar w with
  | Some sb => hasClass "collapsed" sb
  | None => false
  end.

(** The marks of the open state on the mobile viewport class. *)
Definition expanded (w : World) : bool :=
  match sidebar w with
  | Some sb => hasClass "sidebar-expanded" sb
  | None => false
  end.

Definition overlayActive (w : World) : bool :=
  match overlay w with
  | Some ov => hasClass "active" ov
  | None => false
  end.

Definition hamburgerActive (w : World) : bool :=
  match hamburger w with
  | Some hb => hasClass "active" hb
  | None => false
  end.

(** The marks agree with the open flag, as [open] and [close] leave them. *)
Definition consistent (w : World) : Prop :=
  expanded w = isOpen w /\
  overlayActive w = isOpen w /\
  bodyOverflow w = (if isOpen w then "hidden" else "").

End Sidebar.

(** ** Testimonial carousel *)
Module Carousel.
Import Dom.

Record Slide := mkSlide {
  offsetWidth : Z;
  slideEl : Element;
  (** [slide.querySelector('.testimonial-content')] *)
  content : option Element
}.

(** [track.style.transform]: unset, or [translateX(-<px>px)] *)
Inductive Transform := TransformUnset | TranslateXNegPx (px : Z).

Record World := mkWorld {
  st : AppState;
  track : option Transform;
  slides : list Slide;
  dotsContainer : bool;
  dots : list Element;
  (** the variables [startX] and [currentX] closed over by the swipe handlers *)
  startX : Z;
  currentX : Z
}.

Definition withState (f : AppState -> AppState) (w : World) : World :=
  mkWorld (f (st w)) (track w) (slides w) (dotsContainer w) (dots w) (startX w) (currentX w).

Definition withDots (d : list Element) (w : World) : World :=
  mkWorld (st w) (track w) (slides w) (dotsContainer w) d (startX w) (currentX w).

Definition withGesture (sx cx : Z) (w : World) : World :=
  mkWorld (st w) (track w) (slides w) (dotsContainer w) (dots w) sx cx.

Definition setCurrent (i : Z) (s : AppState) : AppState :=
  mkAppState i (carouselInterval s) (resizeTimeout s) (isMobile s).

Definition setInterval (t : option Z) (s : AppState) : AppState :=
  mkAppState (currentTestimonial s) t (resizeTimeout s) (isMobile s).

Definition updateDots (w : World) : World :=
  let cur := currentTestimonial (st w) in
  withDots
    (imap (fun index dot =>
             setAttribute "aria-current" (Js.string_of_bool (Z.of_nat index =? cur)%Z)
               (classToggleForce "active" (Z.of_nat index =? cur)%Z dot))
          (dots w))
    w.

(** [None] is the [TypeError] thrown by [this.slides[0].offsetWidth] when
    there is no slide; nothing has been written at that point. *)
Definition goToSlide (index : Z) (w : World) : option World :=
  let n := Z.of_nat (length (slides w)) in
  let index := if (index <? 0)%Z then (n - 1)%Z else index in
  let index := if (index >=? n)%Z then 0%Z else index in
  match slides w with
  | [] => None
  | first :: _ =>
      let slideWidth := offsetWidth first in
      let tr := option_map (fun _ => TranslateXNegPx (index * slideWidth)) (track w) in
      let w := mkWorld (setCurrent index (st w)) tr (slides w) (dotsContainer w)
                 (dots w) (startX w) (currentX w) in
      let w := updateDots w in
      let sl :=
        imap (fun i slide =>
                mkSlide (offsetWidth slide)
                  (setAttribute "aria-hidden"
                     (Js.string_of_bool (negb (Z.of_nat i =? index)%Z)) (slideEl slide))
                  (option_map
                     (setAttribute "tabindex" (if (Z.of_nat i =? index)%Z then "0" else "-1"))
                     (content slide)))
             (slides w) in
      Some (mkWorld (st w) (track w) sl (dotsContainer w) (dots w) (startX w) (currentX w))
  end.

Definition next (w : World) : option World :=
  goToSlide (currentTestimonial (st w) + 1) w.

Definition prev (w : World) : option World :=
  goToSlide (currentTestimonial (st w) - 1) w.

Definition stopAutoAdvance (w : World) : World :=
  match carouselInterval (st w) with
  | Some _ => withState (setInterval None) w
  | None => w
  end.

Definition startAutoAdvance (w : World) : World :=
  withState (setInterval (Some config.carouselInterval)) (stopAutoAdvance w).

(** The dot created for the slide at position [index]. *)
Definition newDot (index : nat) : Element :=
  setAttribute "aria-label"
    (String.append "Go to testimonial " (NilZero.string_of_uint (Nat.to_uint (index + 1))))
    (mkElement ["carousel-dot"] [] "").

Definition createDots (w : World) : World :=
  if dotsContainer w then
    updateDots (withDots (dots w ++ imap (fun index _ => newDot index) (slides w)) w)
  else w.

Definition init (w : World) : World :=
  startAutoAdvance (createDots w).

(** The constructor, given what the selectors find on the page. *)
Definition construct (s : AppState) (tr : option Transform) (sl : list Slide)
    (container : bool) : World :=
  let w := mkWorld s tr sl container [] 0 0 in
  if (1 <? length sl)%nat then init w else w.

(** *** Swipe support: the three handlers, given the [pageX] of the event *)

Definition handleStart (pageX : Z) (w : World) : World :=
  stopAutoAdvance (withGesture pageX (currentX w) w).

Definition handleMove (pageX : Z) (w : World) : World :=
  if (startX w =? 0)%Z then w else withGesture (startX w) pageX w.

Definition threshold : Z := 50.

Definition handleEnd (w : World) : option World :=
  if (startX w =? 0)%Z then Some w
  else
    let diff := (startX w - currentX w)%Z in
    let moved :=
      if (Z.abs diff >? threshold)%Z then
        (if (diff >? 0)%Z then next w else prev w)
      else Some w in
    match moved with
    | None => None
    | Some w => Some (startAutoAdvance (withGesture 0 0 w))
    end.

(** The interval callback. *)
Definition tick (w : World) : option World := next w.

(** *** Navigation actions *)

Inductive Action :=
| GoToSlide (k : Z)
| Next
| Prev
| DotClick (i : nat).

(** The click listener of dot [i] calls [goToSlide(i)]; there is no such
    listener when the dot does not exist. *)
Definition run (a : Action) (w : World) : option World :=
  match a with
  | GoToSlide k => goToSlide k w
  | Next => next w
  | Prev => prev w
  | DotClick i =>
      match dots w !! i with
      | Some _ => goToSlide (Z.of_nat i) w
      | None => Some w
      end
  end.

(** A gesture on the track: press at [x0], move through [xs], release. *)
Definition pressAndMove (x0 : Z) (xs : list Z) (w : World) : World :=
  fold_left (fun w x => handleMove x w) xs (handleStart x0 w).

Definition gesture (x0 : Z) (xs : list Z) (w : World) : option World :=
  handleEnd (pressAndMove x0 xs w).

(** Positions of the dots that carry the active marker. *)
Definition activeDots (w : World) : list nat :=
  List.filter (fun i => match dots w !! i with
                        | Some d => hasClass "active" d
                        | None => false
                        end)
              (seq 0 (length (dots w))).

(** The effective index as the specification words it, with the
    remainder operator [%] of JavaScript (truncated division). *)
Definition spec_index (k n : Z) : Z := Z.rem (Z.rem k n + n) n.

(** *** Events

    Every listener the carousel installs, and the interval callback.  The
    keyboard, hover, focus and swipe listeners exist only when the track
    does; the interval callback runs only while the timer does. *)
Inductive Event :=
| Nav (a : Action)
| KeyArrowLeft
| KeyArrowRight
| MouseEnter
| MouseLeave
| FocusIn
| FocusOut
| Press (pageX : Z)
| Move (pageX : Z)
| Release
| Tick.

Definition onTrack (h : World -> option World) (w : World) : option World :=
  match track w with
  | Some _ => h w
  | None => Some w
  end.

Definition handle (e : Event) (w : World) : option World :=
  match e with
  | Nav a => run a w
  | KeyArrowLeft => onTrack prev w
  | KeyArrowRight => onTrack next w
  | MouseEnter | FocusIn => onTrack (fun w => Some (stopAutoAdvance w)) w
  | MouseLeave | FocusOut => onTrack (fun w => Some (startAutoAdvance w)) w
  | Press x => onTrack (fun w => Some (handleStart x w)) w
  | Move x => onTrack (fun w => Some (handleMove x w)) w
  | Release => onTrack handleEnd w
  | Tick =>
      match carouselInterval (st w) with
      | Some _ => tick w
      | None => Some w
      end
  end.

(** *** Vocabulary of the properties *)

Definition slideCount (w : World) : Z := Z.of_nat (length (slides w)).

Definition current (w : World) : Z := currentTestimonial (st w).

(** The index [goToSlide] settles on, as its first two statements compute it. *)
Definition effectiveIndex (index n : Z) : Z :=
  let index := if (index <? 0)%Z then (n - 1)%Z else index in
  if (index >=? n)%Z then 0%Z else index.

Definition inRange (w : World) : Prop := (0 <= current w < slideCount w)%Z.

(** An action that can occur: a dot that is clicked exists. *)
Definition enabled (a : Action) (w : World) : Prop :=
  match a with
  | DotClick i => (i < length (dots w))%nat
  | _ => True
  end.

(** No gesture is in progress. *)
Definition atRest (w : World) : Prop := startX w = 0%Z /\ currentX w = 0%Z.

End Carousel.

(** ** Image modal system *)
Module ImageModal.
Import Dom.

Record Image := mkImage { src : string; alt : string; loading : string }.

(** What the content region holds: the markup of the page, the loading
    placeholder, the loaded image, or the load-failure notice. *)
Inductive Content :=
| Initial (html : string)
| Loading
| Loaded (img : Image)
| Failed.

Inductive Focus := FocusElsewhere | FocusViewBtn | FocusModalClose.

Record World := mkWorld {
  modal : option Element;
  modalContent : option Content;
  (** whether the modal has a close control *)
  modalClose : bool;
  bodyOverflow : string;
  activeElement : Focus;
  (** the images under construction whose load or error event is awaited,
      oldest first *)
  pending : list Image;
  (** whether the close control takes the focus when [focus()] is called on
      it: a button does, an element that is not focusable (a [span] without
      [tabindex], a disabled button) does not *)
  closeTakesFocus : bool
}.

Definition open (button : Element) (w : World) : World :=
  let imgSrc := getAttribute "data-image" button in
  let imgAlt :=
    match getAttribute "data-alt" button with
    | Some a => if String.eqb a "" then "Portfolio Image" else a
    | None => "Portfolio Image"
    end in
  match imgSrc, modalContent w with
  | Some s, Some _ =>
      if String.eqb s "" then w
      else
        mkWorld
          (option_map (classAdd "open") (modal w))
          (Some Loading)
          (modalClose w)
          "hidden"
          (if modalClose w && closeTakesFocus w then FocusModalClose else activeElement w)
          (pending w ++ [mkImage s imgAlt "eager"])
          (closeTakesFocus w)
  | _, _ => w
  end.

(** [img.onload] of the awaited image at position [i] *)
Definition onload (i : nat) (w : World) : World :=
  match pending w !! i, modalContent w with
  | Some img, Some _ =>
      mkWorld (modal w) (Some (Loaded img)) (modalClose w) (bodyOverflow w)
        (activeElement w) (delete i (pending w)) (closeTakesFocus w)
  | _, _ => w
  end.

(** [img.onerror] of the awaited image at position [i] *)
Definition onerror (i : nat) (w : World) : World :=
  match pending w !! i, modalContent w with
  | Some _, Some _ =>
      mkWorld (modal w) (Some Failed) (modalClose w) (bodyOverflow w)
        (activeElement w) (delete i (pending w)) (closeTakesFocus w)
  | _, _ => w
  end.

Definition close (w : World) : World :=
  mkWorld (option_map (classRemove "open") (modal w)) (modalContent w) (modalClose w)
    "" (activeElement w) (pending w) (closeTakesFocus w).

End ImageModal.

(** ** Form handling *)
Module ContactForm.
Import Dom.

Record Field := mkField {
  type : string;
  required : bool;
  value : Js.jsstring;
  defaultValue : Js.jsstring;
  el : Element;
  (** the parent node of the field, as an index in [parents] *)
  parentNode : nat
}.

(** What a button shows: the markup of the page, the busy label or the
    idle label. *)
Inductive Label := PageMarkup | Sending | SendMessage.

Record Button := mkButton {
  disabled : bool;
  btn : Element;
  innerHTML : Label
}.

Record World := mkWorld {
  fields : list Field;
  (** for each parent node, the texts of its [.field-error] descendants,
      in document order *)
  parents : list (list string);
  submitButton : option Button;
  resetButton : option Button;
  toast : Toast.Toast;
  (** what was logged with [console.error] *)
  console : list string;
  (** the field that has the focus, if a field has it *)
  activeElement : option nat
}.

(** [/^[^\s@]+@[^\s@]+\.[^\s@]+$/] *)
Definition notSpaceAt (c : N) : bool := negb (Js.isWhiteSpace c || (c =? 64)%N).
Definition isAt (c : N) : bool := (c =? 64)%N.
Definition isDot (c : N) : bool := (c =? 46)%N.

Definition emailRegex : Regex.regex :=
  Regex.Cat (Regex.Plus (Regex.Class notSpaceAt))
    (Regex.Cat (Regex.Class isAt)
       (Regex.Cat (Regex.Plus (Regex.Class notSpaceAt))
          (Regex.Cat (Regex.Class isDot)
             (Regex.Plus (Regex.Class notSpaceAt))))).

Definition isValidEmail (email : Js.jsstring) : bool := Regex.test emailRegex email.

Definition withFields (fs : list Field) (w : World) : World :=
  mkWorld fs (parents w) (submitButton w) (resetButton w) (toast w) (console w)
    (activeElement w).

Definition withParents (ps : list (list string)) (w : World) : World :=
  mkWorld (fields w) ps (submitButton w) (resetButton w) (toast w) (console w)
    (activeElement w).

Definition withToast (t : Toast.Toast) (w : World) : World :=
  mkWorld (fields w) (parents w) (submitButton w) (resetButton w) t (console w)
    (activeElement w).

Definition withEl (f : Element -> Element) (fd : Field) : Field :=
  mkField (type fd) (required fd) (value fd) (defaultValue fd) (f (el fd)) (parentNode fd).

(** The verdict of [validateField]: validity and message. *)
Definition verdict (fd : Field) : bool * string :=
  let v := Js.trim (value fd) in
  if String.eqb (type fd) "email" then
    let isValid := isValidEmail v in
    (isValid, if isValid then "" else "Please enter a valid email address")
  else
    match required fd, v with
    | true, [] => (false, "This field is required")
    | _, _ => (true, "")
    end.

(** [setFieldValidity] for the field at position [i] *)
Definition setFieldValidity (i : nat) (isValid : bool) (message : string) (w : World) : World :=
  match fields w !! i with
  | None => w
  | Some fd =>
      let fd1 := withEl (setAttribute "aria-invalid" (Js.string_of_bool (negb isValid))) fd in
      let ps1 := alter (fun errs => List.tl errs) (parentNode fd) (parents w) in
      let ps2 :=
        if negb isValid && negb (String.eqb message "") then
          alter (fun errs => errs ++ [message]) (parentNode fd) ps1
        else ps1 in
      let fd2 := withEl (classToggleForce "error" (negb isValid)) fd1 in
      withParents ps2 (withFields (<[i := fd2]> (fields w)) w)
  end.

Definition validateField (i : nat) (w : World) : World * bool :=
  match fields w !! i with
  | None => (w, true)
  | Some fd =>
      let '(isValid, message) := verdict fd in
      (setFieldValidity i isValid message w, isValid)
  end.

Definition clearFieldError (i : nat) (w : World) : World :=
  match fields w !! i with
  | None => w
  | Some fd =>
      let fd1 := withEl (removeAttribute "aria-invalid") (withEl (classRemove "error") fd) in
      withParents (alter (fun errs => List.tl errs) (parentNode fd) (parents w))
        (withFields (<[i := fd1]> (fields w)) w)
  end.

Inductive FormState := loading | idle.

Definition TypeError : string := "TypeError".

(** [setFormState]: writes the submit button, then the reset button, then
    the submit button again; writing a property of a missing button throws,
    and the second component is then the exception. *)
Definition setFormState (s : FormState) (w : World) : World * option string :=
  match submitButton w with
  | None => (w, Some TypeError)
  | Some sb =>
      let d := match s with loading => true | idle => false end in
      let sb1 := mkButton d (btn sb) (innerHTML sb) in
      match resetButton w with
      | None =>
          (mkWorld (fields w) (parents w) (Some sb1) None (toast w) (console w)
             (activeElement w), Some TypeError)
      | Some rb =>
          let rb1 := mkButton d (btn rb) (innerHTML rb) in
          let sb2 :=
            match s with
            | loading => mkButton d (classAdd "loading" (btn sb1)) Sending
            | idle => mkButton d (classRemove "loading" (btn sb1)) SendMessage
            end in
          (mkWorld (fields w) (parents w) (Some sb2) (Some rb1) (toast w) (console w)
             (activeElement w), None)
      end
  end.

(** How the promise returned by [submitForm] settles. *)
Inductive Settled := Resolved | Rejected (error : string).

(** [submitForm], given whether [Math.random() > 0.2] holds for the draw *)
Definition submitForm (drawAboveThreshold : bool) : Settled :=
  if drawAboveThreshold then Resolved else Rejected "Network error".

(** [form.reset()] *)
Definition reset (w : World) : World :=
  withFields
    (List.map (fun fd => mkField (type fd) (required fd) (defaultValue fd) (defaultValue fd)
                           (el fd) (parentNode fd))
              (fields w))
    w.

(** The validation pass of [handleSubmit]: every field is validated, in order. *)
Definition validateStep (acc : World * bool) (i : nat) : World * bool :=
  let '(w1, ok) := validateField i (fst acc) in
  (w1, if ok then snd acc else false).

Definition validateAll (w : World) : World * bool :=
  fold_left validateStep (seq 0 (length (fields w))) (w, true).

(** [form.querySelector('[aria-invalid=true]')] restricted to the fields *)
Definition firstInvalid (w : World) : option nat :=
  List.find
    (fun i => match fields w !! i with
              | Some fd =>
                  match getAttribute "aria-invalid" (el fd) with
                  | Some v => String.eqb v "true"
                  | None => false
                  end
              | None => false
              end)
    (seq 0 (length (fields w))).

Definition successMessage : string :=
  "Message sent successfully! I will get back to you soon.".
Definition failureMessage : string := "Failed to send message. Please try again.".
Definition invalidMessage : string := "Please fix the errors in the form".

(** The [try]/[catch]/[finally] of [handleSubmit] from the [await] on, given
    what [setFormState('loading')] threw, if it threw, and how the awaited
    promise settles otherwise.  The second component is the exception that
    escapes. *)
Definition settle (thrown : option string) (outcome : Settled) (w1 : World)
  : World * option string :=
  let '(w2, caught) :=
    match thrown with
    | Some e => (w1, Some e)
    | None =>
        match outcome with
        | Resolved =>
            let w2 := reset w1 in
            (withToast (Toast.show_default successMessage (toast w2)) w2, None)
        | Rejected e => (w1, Some e)
        end
    end in
  let w3 :=
    match caught with
    | Some e =>
        let w3 := withToast (Toast.show failureMessage "error" (toast w2)) w2 in
        mkWorld (fields w3) (parents w3) (submitButton w3) (resetButton w3) (toast w3)
          (console w3 ++ [String.append "Form submission error: " e]) (activeElement w3)
    | None => w2
    end in
  setFormState idle w3.

(** The submission of a form whose fields all validate, when nothing else
    happens while the promise is awaited. *)
Definition submitValid (outcome : Settled) (w : World) : World * option string :=
  let '(w1, thrown) := setFormState loading w in
  settle thrown outcome w1.

Definition handleSubmit (outcome : Settled) (w : World) : World * option string :=
  let '(w1, isFormValid) := validateAll w in
  if negb isFormValid then
    let w2 := withToast (Toast.show invalidMessage "error" (toast w1)) w1 in
    let w3 :=
      match firstInvalid w2 with
      | Some i =>
          mkWorld (fields w2) (parents w2) (submitButton w2) (resetButton w2) (toast w2)
            (console w2) (Some i)
      | None => w2
      end in
    (w3, None)
  else submitValid outcome w1.

(** *** Vocabulary of the properties *)

(** The string has no [@] (code unit 64). *)
Definition noAt (s : Js.jsstring) : Prop := ~ In 64%N s.

(** The string has an [@] with no [.] (code unit 46) in the part after it. *)
Definition noDomainDot (s : Js.jsstring) : Prop :=
  exists u v, s = u ++ 64%N :: v /\ ~ In 46%N v.

(** What a field holds apart from its validation marks. *)
Definition data (fd : Field) : string * bool * Js.jsstring * Js.jsstring * nat :=
  (type fd, required fd, value fd, defaultValue fd, parentNode fd).

(** Validation touches the validation marks of the fields and the inline
    error messages only. *)
Definition sameForm (w w' : World) : Prop :=
  List.map data (fields w') = List.map data (fields w) /\
  submitButton w' = submitButton w /\
  resetButton w' = resetButton w /\
  toast w' = toast w /\
  console w' = console w /\
  activeElement w' = activeElement w.

Definition validAt (w : World) (i : nat) : bool :=
  match fields w !! i with
  | Some fd => fst (verdict fd)
  | None => true
  end.

(** The toast shows [message] with the styling of [severity]. *)
Definition toastShows (message severity : string) (w : World) : Prop :=
  exists e, Toast.element (toast w) = Some e /\
    textContent e = message /\
    classList e = ["toast"; "show"; String.append "toast-" severity].

(** Both controls are enabled and the submit control has its idle label. *)
Definition controlsIdle (w : World) : Prop :=
  exists sb rb, submitButton w = Some sb /\ resetButton w = Some rb /\
    disabled sb = false /\ disabled rb = false /\
    innerHTML sb = SendMessage /\ hasClass "loading" (btn sb) = false.

End ContactForm.

(** ** Tab management system *)
Module Tabs.
Import Dom.

(** The elements of the document, in document order; an element is
    referred to by its position. *)
Abbreviation Document := (list Element).

(** The ID of an element: its [id] attribute, when not empty. *)
Definition elementId (e : Element) : option string :=
  match getAttribute "id" e with
  | Some s => if String.eqb s "" then None else Some s
  | None => None
  end.

Definition hasId (id : string) (e : Element) : bool :=
  match elementId e with
  | Some s => String.eqb s id
  | None => false
  end.

(** [document.getElementById]: the first element, in document order, with
    the given ID. *)
Definition getElementById (id : string) (doc : Document) : option nat :=
  List.find (fun i => match doc !! i with Some e => hasId id e | None => false end)
    (seq 0 (length doc)).

(** Conversion of a possibly [null] value to a DOM string argument. *)
Definition domString (o : option string) : string :=
  match o with
  | Some s => s
  | None => "null"
  end.

Definition forEach (f : nat -> Document -> Document) (nodes : list nat) (doc : Document)
  : Document :=
  fold_left (fun d n => f n d) nodes doc.

Definition targetId (activeLink : nat) (dataAttribute : string) (doc : Document) : string :=
  domString (match doc !! activeLink with
             | Some e => getAttribute dataAttribute e
             | None => None
             end).

Definition activateTab (activeLink : nat) (allLinks allPanes : list nat)
    (dataAttribute : string) (doc : Document) : Document :=
  let doc := forEach (fun tab => alter (classRemove "active") tab) allLinks doc in
  let doc := alter (classAdd "active") activeLink doc in
  let doc := forEach (fun pane => alter (classRemove "active") pane) allPanes doc in
  let target := targetId activeLink dataAttribute doc in
  match getElementById target doc with
  | Some activePane =>
      let doc := alter (classAdd "active") activePane doc in
      let doc := alter (setAttribute "aria-hidden" "false") activePane doc in
      forEach (fun pane d =>
                 if Nat.eqb pane activePane then d
                 else alter (setAttribute "aria-hidden" "true") pane d)
        allPanes doc
  | None => doc
  end.

Definition isActive (doc : Document) (n : nat) : bool :=
  match doc !! n with
  | Some e => hasClass "active" e
  | None => false
  end.

(** The members of a group that carry the active marker. *)
Definition activeIn (doc : Document) (group : list nat) : list nat :=
  List.filter (isActive doc) group.

(** The ID of the element at a position. *)
Definition idAt (doc : Document) (n : nat) : option string :=
  match doc !! n with
  | Some e => elementId e
  | None => None
  end.


End Tabs.

(** ** Toast: the severities [show] accepts *)
Module ToastTokens.

(** ASCII white space: tab, line feed, form feed, carriage return, space. *)
Definition isAsciiWhitespace (c : ascii) : bool :=
  let n := nat_of_ascii c in
  Nat.eqb n 9 || Nat.eqb n 10 || Nat.eqb n 12 || Nat.eqb n 13 || Nat.eqb n 32.

(** [classList.add] throws on a token that holds ASCII white space; the
    token [show] builds from a severity is never empty. *)
Definition isToken (type : string) : bool :=
  negb (existsb isAsciiWhitespace (list_ascii_of_string type)).

End ToastTokens.

(** ** Sidebar: the constructor and the listeners of [bindEvents] *)
Module SidebarEvents.
Import Dom Sidebar.

(** The constructor, given what the element cache holds and how the page
    stands. *)
Definition construct (s : AppState) (sb hb ov : option Element) (navLink : bool)
    (overflow : string) (focus : Focus) (hbFocus : bool) : World :=
  setInitialState (mkWorld s sb hb ov false navLink overflow focus hbFocus).

Inductive Event :=
| HamburgerClick
| HamburgerKey (key : string)
| OverlayClick
| NavLinkClick
| DocumentKey (key : string)
| ResizeSettled (innerWidth : Z).

Definition handle (e : Event) (w : World) : World :=
  match e with
  | HamburgerClick =>
      match hamburger w with
      | Some _ => toggle w
      | None => w
      end
  | HamburgerKey key =>
      match hamburger w with
      | Some _ => if String.eqb key "Enter" || String.eqb key " " then toggle w else w
      | None => w
      end
  | OverlayClick =>
      match overlay w with
      | Some _ => close w
      | None => w
      end
  | NavLinkClick => if isMobile (st w) then close w else w
  | DocumentKey key =>
      if String.eqb key "Escape" && isOpen w && isMobile (st w) then close w else w
  | ResizeSettled innerWidth => resizeSettled innerWidth w
  end.

(** [handleResize]: the pending timer is cleared and a new one is set. *)
Definition handleResize (w : World) : World :=
  let s := st w in
  mkWorld (mkAppState (currentTestimonial s) (carouselInterval s)
             (Some config.resizeDelay) (isMobile s))
    (sidebar w) (hamburger w) (overlay w) (isOpen w) (hasNavLink w)
    (bodyOverflow w) (activeElement w) (hamburgerTakesFocus w).

End SidebarEvents.

(** ** Carousel: repeated firings of the interval callback *)
Module CarouselTimer.
Import Carousel.

Fixpoint ticks (k : nat) (w : World) : option World :=
  match k with
  | O => Some w
  | S k' =>
      match tick w with
      | Some w1 => ticks k' w1
      | None => None
      end
  end.

End CarouselTimer.

(** ** Image modal: the listeners of [bindEvents] *)
Module ImageModalEvents.
Import Dom ImageModal.

Inductive Event :=
| ViewClick (button : Element)
| CloseClick
| ModalClick (onBackdrop : bool)
| DocumentKey (key : string)
| ImageLoad (i : nat)
| ImageError (i : nat).

Definition modalOpen (w : World) : bool :=
  match modal w with
  | Some m => hasClass "open" m
  | None => false
  end.

(** The constructor binds the listeners only when the modal exists. *)
Definition handle (e : Event) (w : World) : World :=
  match modal w with
  | None => w
  | Some _ =>
      match e with
      | ViewClick button => open button w
      | CloseClick => if modalClose w then close w else w
      | ModalClick onBackdrop => if onBackdrop then close w else w
      | DocumentKey key =>
          if String.eqb key "Escape" && modalOpen w then close w else w
      | ImageLoad i => onload i w
      | ImageError i => onerror i w
      end
  end.

(** The modal is open exactly when the page scroll is locked. *)
Definition lockAgrees (w : World) : Prop :=
  modalOpen w = String.eqb (bodyOverflow w) "hidden".

End ImageModalEvents.

(** ** The page scroll lock, shared by the sidebar and the modal

    [document.body.style.overflow] is one property, written by both
    components; the two views of it are kept equal. *)
Module Page.

Record World := mkWorld {
  side : Sidebar.World;
  lightbox : ImageModal.World
}.

Definition setSideOverflow (o : string) (s : Sidebar.World) : Sidebar.World :=
  Sidebar.mkWorld (Sidebar.st s) (Sidebar.sidebar s) (Sidebar.hamburger s)
    (Sidebar.overlay s) (Sidebar.isOpen s) (Sidebar.hasNavLink s) o
    (Sidebar.activeElement s) (Sidebar.hamburgerTakesFocus s).

Definition setModalOverflow (o : string) (m : ImageModal.World) : ImageModal.World :=
  ImageModal.mkWorld (ImageModal.modal m) (ImageModal.modalContent m)
    (ImageModal.modalClose m) o (ImageModal.activeElement m) (ImageModal.pending m)
    (ImageModal.closeTakesFocus m).

(** A method of the sidebar, run on the page. *)
Definition sidebarDo (f : Sidebar.World -> Sidebar.World) (p : World) : World :=
  let s := f (side p) in
  mkWorld s (setModalOverflow (Sidebar.bodyOverflow s) (lightbox p)).

(** A method of the modal, run on the page. *)
Definition modalDo (f : ImageModal.World -> ImageModal.World) (p : World) : World :=
  let m := f (lightbox p) in
  mkWorld (setSideOverflow (ImageModal.bodyOverflow m) (side p)) m.

Definition overflow (p : World) : string := Sidebar.bodyOverflow (side p).

Definition coherent (p : World) : Prop :=
  Sidebar.bodyOverflow (side p) = ImageModal.bodyOverflow (lightbox p).

End Page.

(** ** Contact form: [setupValidation] and the listeners of [bindEvents] *)
Module ContactFormEvents.
Import Dom ContactForm.

Definition setupValidation (w : World) : World :=
  withFields
    (List.map (fun fd => if required fd then withEl (setAttribute "aria-required" "true") fd
                         else fd)
              (fields w))
    w.

(** The [blur] listener of the field at position [i]. *)
Definition blur (i : nat) (w : World) : World := fst (validateField i w).

(** The [input] listener of the field at position [i], which runs once the
    field holds the edited value [v]. *)
Definition input (i : nat) (v : Js.jsstring) (w : World) : World :=
  clearFieldError i
    (withFields
       (alter (fun fd => mkField (type fd) (required fd) v (defaultValue fd) (el fd)
                           (parentNode fd)) i (fields w))
       w).

(** The [.field-error] messages in the parent of the field at position [i]. *)
Definition errorsOf (w : World) (i : nat) : list string :=
  match fields w !! i with
  | Some fd =>
      match parents w !! parentNode fd with
      | Some errs => errs
      | None => []
      end
  | None => []
  end.

(** The [aria-invalid] attribute of the field at position [i]. *)
Definition ariaInvalidAt (w : World) (i : nat) : option string :=
  match fields w !! i with
  | Some fd => getAttribute "aria-invalid" (el fd)
  | None => None
  end.

(** Whether the field at position [i] carries the [error] class. *)
Definition errorClassAt (w : World) (i : nat) : option bool :=
  match fields w !! i with
  | Some fd => Some (hasClass "error" (el fd))
  | None => None
  end.

End ContactFormEvents.

(** ** Tabs: [initPortfolioTabs] and [initBrandingTabs] *)
Module TabsEvents.
Import Dom Tabs.

(** The click listener of [link] in a group found by its two selectors; no
    listener is bound when either selector finds nothing. *)
Definition click (link : nat) (tabLinks tabPanes : list nat) (dataAttribute : string)
    (doc : Document) : Document :=
  match tabLinks, tabPanes with
  | [], _ => doc
  | _, [] => doc
  | _, _ =>
      if existsb (Nat.eqb link) tabLinks
      then activateTab link tabLinks tabPanes dataAttribute doc
      else doc
  end.

Definition attrAt (doc : Document) (n : nat) (name : string) : option string :=
  match doc !! n with
  | Some e => getAttribute name e
  | None => None
  end.

(** What the statements of [activateTab] do, taken together, to the element
    at position [j], when the target identifier resolves to [resolved]. *)
Definition elementStep (j activeLink : nat) (allLinks allPanes : list nat)
    (resolved : option nat) (e : Element) : Element :=
  let e1 := if existsb (Nat.eqb j) allLinks then classRemove "active" e else e in
  let e2 := if Nat.eqb j activeLink then classAdd "active" e1 else e1 in
  let e3 := if existsb (Nat.eqb j) allPanes then classRemove "active" e2 else e2 in
  match resolved with
  | Some activePane =>
      let e4 :=
        if Nat.eqb j activePane
        then setAttribute "aria-hidden" "false" (classAdd "active" e3)
        else e3 in
      if existsb (Nat.eqb j) allPanes && negb (Nat.eqb j activePane)
      then setAttribute "aria-hidden" "true" e4
      else e4
  | None => e3
  end.

End TabsEvents.

(** ** Utility functions *)
Module Utils.
Import Dom.

(** [String.prototype.split] with a separator of one character *)
Fixpoint split (sep : ascii) (s : string) : list string :=
  match s with
  | EmptyString => [EmptyString]
  | String c s' =>
      if Ascii.eqb c sep then EmptyString :: split sep s'
      else
        match split sep s' with
        | h :: t => String c h :: t
        | [] => [String c EmptyString]
        end
  end.

(** [pathname.split('/').pop() || 'index.html'] *)
Definition currentPage (pathname : string) : string :=
  match last (split "/" pathname) with
  | Some page => if String.eqb page "" then "index.html" else page
  | None => "index.html"
  end.

Definition setActiveNavLink (pathname : string) (navLinks : list Element) : list Element :=
  List.map
    (fun link =>
       let link' := classRemove "active" link in
       match getAttribute "href" link with
       | Some href =>
           if String.eqb href (currentPage pathname) then classAdd "active" link'
           else link'
       | None => link'
       end)
    navLinks.

(** [initBackToTop]: the label, and the scroll listener *)
Definition initBackToTop (btn : option Element) : option Element :=
  option_map (setAttribute "aria-label" "Back to top") btn.

Definition scrollHandler (pageYOffset : Z) (btn : Element) : Element :=
  classToggleForce "show" (pageYOffset >? config.scrollThreshold)%Z btn.

(** The character [/] occurs in the string. *)
Fixpoint hasSlash (s : string) : bool :=
  match s with
  | EmptyString => false
  | String c s' => Ascii.eqb c "/" || hasSlash s'
  end.

End Utils.

(** ** Animation controllers

    An observed element with its inline style, held as the value last
    assigned to each property (a value the CSS parser would reject is kept
    as assigned).  The observer callbacks are given the entries they
    receive: the position of the target and whether it intersects. *)
Module Animation.
Import Dom.

Record Target := mkTarget {
  node : Element;
  style : attributes;
  observed : bool
}.

Record Entry := mkEntry {
  target : nat;
  isIntersecting : bool
}.

Definition setStyle (name value : string) (t : Target) : Target :=
  mkTarget (node t) (set name value (style t)) (observed t).

Definition observe (t : Target) : Target := mkTarget (node t) (style t) true.
Definition unobserve (t : Target) : Target := mkTarget (node t) (style t) false.

(** [getAttribute('data-target') || '90%'] *)
Definition targetWidth (t : Target) : string :=
  match getAttribute "data-target" (node t) with
  | Some v => if String.eqb v "" then "90%" else v
  | None => "90%"
  end.

Definition setupSkillAnimations (skillLevels : list Target) : list Target :=
  List.map (fun skill => observe (setStyle "width" "0%" skill)) skillLevels.

Definition revealSkill (t : Target) : Target :=
  unobserve (setStyle "width" (targetWidth t) t).

Definition skillCallback (entries : list Entry) (skillLevels : list Target) : list Target :=
  fold_left
    (fun ts entry => if isIntersecting entry then alter revealSkill (target entry) ts else ts)
    entries skillLevels.

Definition setupScrollAnimations (animatedElements : list Target) : list Target :=
  List.map
    (fun element =>
       observe
         (setStyle "transition" "opacity 0.6s ease, transform 0.6s ease"
            (setStyle "transform" "translateY(20px)"
               (setStyle "opacity" "0" element))))
    animatedElements.

Definition revealElement (t : Target) : Target :=
  unobserve (setStyle "transform" "translateY(0)" (setStyle "opacity" "1" t)).

Definition animationCallback (entries : list Entry) (animatedElements : list Target)
  : list Target :=
  fold_left
    (fun ts entry => if isIntersecting entry then alter revealElement (target entry) ts else ts)
    entries animatedElements.

Definition styleAt (ts : list Target) (i : nat) (name : string) : option string :=
  match ts !! i with
  | Some t => get name (style t)
  | None => None
  end.

(** Some entry reports the target at position [i] as intersecting. *)
Definition intersects (entries : list Entry) (i : nat) : bool :=
  existsb (fun entry => isIntersecting entry && Nat.eqb (target entry) i) entries.

End Animation.

(** ** Main application initialization

    [PortfolioApp.init] runs four utilities and six constructors inside one
    [try].  How each of these calls ends on the page at hand is given: it
    returns, or throws.  [process] is the global the performance monitoring
    reads.

    Two of the calls add a listener to [window]: [initBackToTop] its scroll
    listener, when the page has the button, and the sidebar its resize
    listener, in the last statement of its constructor.  Neither can throw
    once its listener is added, so a call that throws has added none. *)
Module App.

Inductive Process :=
| ProcessUndefined
| EnvUndefined
| Env (nodeEnv : option string).

Inductive Line :=
| Log (message : string)
| Error (message error : string).

Record App := mkApp {
  components : list string;
  console : list Line;
  (** the event types [init] has added a window listener for *)
  windowListeners : list string
}.

(** A call of [init]: its name, whether its result is stored as a
    component, the exception it throws, if it throws, and the event types it
    adds a window listener for when it returns. *)
Record Call := mkCall {
  name : string;
  isComponent : bool;
  thrown : option string;
  windowEvents : list string
}.

Fixpoint runCalls (calls : list Call) (a : App) : App * option string :=
  match calls with
  | [] => (a, None)
  | c :: rest =>
      match thrown c with
      | Some e => (a, Some e)
      | None =>
          runCalls rest
            (mkApp (if isComponent c then components a ++ [name c] else components a)
               (console a) (windowListeners a ++ windowEvents c))
      end
  end.

Definition setupPerformanceMonitoring (process : Process) (a : App) : App * option string :=
  match process with
  | ProcessUndefined => (a, Some "ReferenceError")
  | EnvUndefined => (a, Some "TypeError")
  | Env nodeEnv =>
      let a1 :=
        match nodeEnv with
        | Some v =>
            if String.eqb v "development"
            then mkApp (components a) (console a) (windowListeners a ++ ["load"])
            else a
        | None => a
        end in
      (mkApp (components a1) (console a1) (windowListeners a1 ++ ["error"]), None)
  end.

(** The calls of [init], in order, given whether the page has the
    back-to-top button and the exception each call throws. *)
Definition calls (backToTopBtn : bool) (outcome : string -> option string) : list Call :=
  [ mkCall "setCurrentYear" false (outcome "setCurrentYear") [];
    mkCall "setActiveNavLink" false (outcome "setActiveNavLink") [];
    mkCall "initBackToTop" false (outcome "initBackToTop")
      (if backToTopBtn then ["scroll"] else []);
    mkCall "optimizeImages" false (outcome "optimizeImages") [];
    mkCall "sidebar" true (outcome "sidebar") ["resize"];
    mkCall "carousel" true (outcome "carousel") [];
    mkCall "modal" true (outcome "modal") [];
    mkCall "contactForm" true (outcome "contactForm") [];
    mkCall "animations" true (outcome "animations") [];
    mkCall "tabs" true (outcome "tabs") [] ].

Definition init (backToTopBtn : bool) (outcome : string -> option string)
    (process : Process) : App :=
  let a0 := mkApp [] [] [] in
  let '(a1, e1) := runCalls (calls backToTopBtn outcome) a0 in
  let '(a2, e2) :=
    match e1 with
    | Some e => (a1, Some e)
    | None =>
        let '(a, e) := setupPerformanceMonitoring process a1 in
        match e with
        | Some e => (a, Some e)
        | None =>
            (mkApp (components a)
               (console a ++ [Log "Portfolio app initialized successfully"])
               (windowListeners a), None)
        end
    end in
  match e2 with
  | Some e =>
      mkApp (components a2)
        (console a2 ++ [Error "Failed to initialize portfolio app:" e])
        (windowListeners a2)
  | None => a2
  end.

Definition componentNames : list string :=
  ["sidebar"; "carousel"; "modal"; "contactForm"; "animations"; "tabs"].

End App.

(** ** Sample pages *)
Module Examples.
Import Dom.

Definition plain : Element := mkElement [] [] "".

Definition desktop : AppState := mkAppState 0 None None false.

Definition slide : Carousel.Slide := Carousel.mkSlide 320 plain (Some plain).

(** A carousel of three testimonials with a track and a dots container. *)
Definition carousel3 : Carousel.World :=
  Carousel.construct desktop (Some Carousel.TransformUnset) [slide; slide; slide] true.

(** A view button without image data, and a closed modal. *)
Definition bareButton : Element := mkElement ["view-btn"] [("href", "#")] "View".

Definition closedModal : ImageModal.World :=
  ImageModal.mkWorld (Some (mkElement ["modal"] [("id", "imageModal")] ""))
    (Some (ImageModal.Initial "")) true "" ImageModal.FocusViewBtn [] true.

Definition emailField (v : string) : ContactForm.Field :=
  ContactForm.mkField "email" false (Js.of_ascii v) [] plain 1.

Definition nameField (v : string) : ContactForm.Field :=
  ContactForm.mkField "text" true (Js.of_ascii v) [] plain 0.

Definition messageField (v : string) : ContactForm.Field :=
  ContactForm.mkField "textarea" true (Js.of_ascii v) [] plain 2.

Definition button : ContactForm.Button :=
  ContactForm.mkButton false plain ContactForm.PageMarkup.

(** A contact form with a name, an email address and a message. *)
Definition form (name email message : string) : ContactForm.World :=
  ContactForm.mkWorld [nameField name; emailField email; messageField message]
    [[]; []; []] (Some button) (Some button)
    (Toast.mkToast (Some (mkElement ["toast"] [("id", "toast")] "")) None)
    [] None.

(** A tab group of two links and two panes; the second link names a pane
    that does not exist. *)
Definition tabsPage : Tabs.Document :=
  [ mkElement ["nav-link-portfolio"; "active"] [("data-category", "web")] "Web";
    mkElement ["nav-link-portfolio"] [("data-category", "print")] "Print";
    mkElement ["nav-link-portfolio"] [("data-category", "video")] "Video";
    mkElement ["portfolio-category"; "active"] [("id", "web")] "";
    mkElement ["portfolio-category"] [("id", "print")] "" ].




Definition mobile : AppState := mkAppState 0 None None true.

(** The toast of a page, showing nothing. *)
Definition quietToast : Toast.Toast :=
  Toast.mkToast (Some (mkElement ["toast"] [("id", "toast")] "")) None.

(** A sidebar opened on the mobile viewport class. *)
Definition openMobileSidebar : Sidebar.World :=
  Sidebar.open
    (SidebarEvents.construct mobile
       (Some (mkElement ["sidebar"] [("id", "sidebar")] ""))
       (Some (mkElement ["hamburger"] [("id", "hamburger")] ""))
       (Some (mkElement ["overlay"] [("id", "overlay")] ""))
       true "" Sidebar.FocusBody true).

(** A closed modal whose close control is an element that does not take
    the focus. *)
Definition spanCloseModal : ImageModal.World :=
  ImageModal.mkWorld (Some (mkElement ["modal"] [("id", "imageModal")] ""))
    (Some (ImageModal.Initial "")) true "" ImageModal.FocusViewBtn [] false.

(** A view button with image data. *)
Definition viewButton (source : string) : Element :=
  mkElement ["view-btn"] [("data-image", source); ("data-alt", "")] "View".

End Examples.

(* ===================================================================== *)
(** * Part II: lemmas and theorems *)
(* ===================================================================== *)

(** ** Class lists *)
Section ClassList.
Import Dom.

Lemma contains_app cl1 cl2 t : contains (cl1 ++ cl2) t = contains cl1 t || contains cl2 t.
Proof. unfold contains. apply existsb_app. Qed.

Lemma contains_add t cl u : contains (add t cl) u = contains cl u || String.eqb u t.
Proof.
  unfold add. destruct (contains cl t) eqn:E.
  - destruct (String.eqb_spec u t) as [->|]; rewrite ?E, ?orb_false_r; auto.
  - rewrite contains_app. simpl. now rewrite orb_false_r.
Qed.

Lemma contains_remove t cl u : contains (remove t cl) u = contains cl u && negb (String.eqb u t).
Proof.
  unfold contains, remove. induction cl as [|x cl IH]; simpl; auto.
  destruct (String.eqb_spec t x) as [->|Hne]; simpl.
  - rewrite IH. destruct (String.eqb_spec u x); simpl; auto.
    apply andb_false_r.
  - rewrite IH. destruct (String.eqb_spec u x) as [->|]; simpl; auto.
    destruct (String.eqb_spec x t); [congruence|]. auto.
Qed.

Lemma contains_toggle t cl u :
  contains (toggle t cl) u = if String.eqb u t then negb (contains cl t) else contains cl u.
Proof.
  unfold toggle. destruct (contains cl t) eqn:E.
  - rewrite contains_remove. destruct (String.eqb_spec u t) as [->|]; simpl.
    + apply andb_false_r.
    + apply andb_true_r.
  - rewrite contains_add. destruct (String.eqb_spec u t) as [->|]; simpl.
    + apply orb_true_r.
    + apply orb_false_r.
Qed.

Lemma contains_toggle_force t b cl :
  contains (toggle_force t b cl) t = b.
Proof.
  unfold toggle_force. destruct b.
  - rewrite contains_add, String.eqb_refl. apply orb_true_r.
  - rewrite contains_remove, String.eqb_refl. apply andb_false_r.
Qed.

Lemma hasClass_classAdd t e u : hasClass u (classAdd t e) = hasClass u e || String.eqb u t.
Proof. apply contains_add. Qed.

Lemma hasClass_classRemove t e u :
  hasClass u (classRemove t e) = hasClass u e && negb (String.eqb u t).
Proof. apply contains_remove. Qed.

Lemma hasClass_setAttribute n v e u : hasClass u (setAttribute n v e) = hasClass u e.
Proof. reflexivity. Qed.

Lemma get_set_eq n v a : get n (set n v a) = Some v.
Proof.
  induction a as [|[m x] a IH]; simpl.
  - now rewrite String.eqb_refl.
  - destruct (String.eqb_spec m n) as [->|Hne]; simpl.
    + now rewrite String.eqb_refl.
    + destruct (String.eqb_spec m n); [congruence|]. exact IH.
Qed.

Lemma get_set_ne n m v a : n <> m -> get m (set n v a) = get m a.
Proof.
  intros Hne. induction a as [|[k x] a IH]; simpl.
  - destruct (String.eqb_spec n m); [congruence|]. reflexivity.
  - destruct (String.eqb_spec k n) as [->|Hkn]; simpl.
    + destruct (String.eqb_spec n m); [congruence|]. reflexivity.
    + destruct (String.eqb_spec k m); auto.
Qed.

End ClassList.

(** ** Regular expressions: the derivative test decides the language *)
Section RegexFacts.
Import Regex.

Lemma matches_nil_nullable r s : matches r s -> s = [] -> nullable r = true.
Proof.
  induction 1; intros Hs; simpl; auto; try discriminate.
  - apply app_eq_nil in Hs as [-> ->]. rewrite IHmatches1, IHmatches2; auto.
  - rewrite IHmatches; auto.
  - rewrite IHmatches; auto. apply orb_true_r.
Qed.

Lemma nullable_matches_nil r : nullable r = true -> matches r [].
Proof.
  induction r; simpl; intros H; try discriminate.
  - constructor.
  - apply andb_true_iff in H as [H1 H2].
    change (@nil N) with (@nil N ++ []). constructor; auto.
  - apply orb_true_iff in H as [H|H]; [apply m_alt_l | apply m_alt_r]; auto.
  - constructor.
Qed.

Lemma deriv_sound c r : forall s, matches (deriv c r) s -> matches r (c :: s).
Proof.
  induction r; simpl; intros s H.
  - inversion H.
  - inversion H.
  - destruct (p c) eqn:E; inversion H; subst. now constructor.
  - destruct (nullable r1) eqn:E.
    + inversion H; subst.
      * inversion H3; subst. change (c :: s1 ++ s2) with ((c :: s1) ++ s2).
        constructor; auto.
      * change (c :: s) with ([] ++ c :: s). constructor; auto.
        now apply nullable_matches_nil.
    + inversion H; subst. change (c :: s1 ++ s2) with ((c :: s1) ++ s2).
      constructor; auto.
  - inversion H; subst; [apply m_alt_l | apply m_alt_r]; auto.
  - inversion H; subst. change (c :: s1 ++ s2) with ((c :: s1) ++ s2).
    constructor; auto.
Qed.

Lemma deriv_complete c r t : matches r t -> forall u, t = c :: u -> matches (deriv c r) u.
Proof.
  induction 1; intros u Ht; simpl; try discriminate.
  - injection Ht as -> <-. rewrite H. constructor.
  - destruct s1 as [|c1 s1]; simpl in Ht.
    + rewrite (matches_nil_nullable _ _ H eq_refl). apply m_alt_r. auto.
    + injection Ht as -> <-.
      destruct (nullable r1); [apply m_alt_l|]; constructor; auto.
  - apply m_alt_l. auto.
  - apply m_alt_r. auto.
  - destruct s1 as [|c1 s1]; simpl in Ht.
    + apply (IHmatches2 _ Ht).
    + injection Ht as -> <-. constructor; auto.
Qed.

Lemma test_spec r s : test r s = true <-> matches r s.
Proof.
  revert r. induction s as [|c s IH]; intros r; simpl.
  - split; [apply nullable_matches_nil | intros H; eapply matches_nil_nullable; eauto].
  - rewrite IH. split; [apply deriv_sound | intros H; eapply deriv_complete; eauto].
Qed.

Lemma matches_star_class p s : matches (Star (Class p)) s <-> forallb p s = true.
Proof.
  split.
  - intros H. remember (Star (Class p)) as r eqn:Hr.
    induction H; try discriminate; auto.
    injection Hr as ->. inversion H; subst. simpl.
    apply andb_true_iff. split; auto.
  - induction s as [|c s IH]; simpl; intros H.
    + constructor.
    + apply andb_true_iff in H as [Hc Hs].
      change (c :: s) with ([c] ++ s). constructor; auto. now constructor.
Qed.

Lemma matches_plus_class p s :
  matches (Plus (Class p)) s <-> s <> [] /\ forallb p s = true.
Proof.
  unfold Plus. split.
  - intros H. inversion H; subst. inversion H2; subst.
    apply matches_star_class in H4. simpl. rewrite H1, H4. split; [discriminate|auto].
  - intros [Hne H]. destruct s as [|c s]; [congruence|]. simpl in H.
    apply andb_true_iff in H as [Hc Hs].
    change (c :: s) with ([c] ++ s). constructor; [now constructor|].
    now apply matches_star_class.
Qed.

Lemma matches_cat_inv r1 r2 s :
  matches (Cat r1 r2) s -> exists s1 s2, s = s1 ++ s2 /\ matches r1 s1 /\ matches r2 s2.
Proof. intros H. inversion H; subst. eauto. Qed.

Lemma matches_class_inv p s : matches (Class p) s -> exists c, s = [c] /\ p c = true.
Proof. intros H. inversion H; subst. eauto. Qed.

End RegexFacts.

(** ** Trimming *)
Section TrimFacts.
Import Js.

Lemma trimStart_spec s : exists a, s = a ++ trimStart s /\ forallb isWhiteSpace a = true.
Proof.
  induction s as [|c s [a [Hs Ha]]]; simpl.
  - exists []. auto.
  - destruct (isWhiteSpace c) eqn:E.
    + exists (c :: a). simpl. rewrite E, Ha. split; [congruence|reflexivity].
    + exists []. auto.
Qed.

Lemma forallb_rev {A} (p : A -> bool) l : forallb p l = true -> forallb p (rev l) = true.
Proof.
  rewrite !forallb_forall. intros H x Hx. apply H. now apply in_rev.
Qed.

Lemma trimEnd_spec s : exists b, s = trimEnd s ++ b /\ forallb isWhiteSpace b = true.
Proof.
  unfold trimEnd. destruct (trimStart_spec (rev s)) as [a [Hs Ha]].
  exists (rev a). split; [|now apply forallb_rev].
  rewrite <- rev_app_distr, <- Hs. symmetry. apply rev_involutive.
Qed.

Lemma trim_spec s :
  exists a b, s = a ++ trim s ++ b /\
    forallb isWhiteSpace a = true /\ forallb isWhiteSpace b = true.
Proof.
  unfold trim. destruct (trimStart_spec s) as [a [Hs Ha]].
  destruct (trimEnd_spec (trimStart s)) as [b [Ht Hb]].
  exists a, b. split; [|auto]. rewrite <- Ht. exact Hs.
Qed.

Lemma whitespace_no_at a : forallb isWhiteSpace a = true -> ~ In 64%N a.
Proof.
  intros H Hin. rewrite forallb_forall in H. apply H in Hin. discriminate.
Qed.

End TrimFacts.

(** ** The email pattern *)
Section EmailFacts.
Import Js Regex ContactForm.

Lemma notSpaceAt_no_at s : forallb notSpaceAt s = true -> ~ In 64%N s.
Proof.
  intros H Hin. rewrite forallb_forall in H. apply H in Hin. discriminate.
Qed.

(** The language of the pattern: local part, [@], domain, [.], suffix, each a
    non-empty run of code units that are neither white space nor [@]. *)
Lemma isValidEmail_iff s :
  isValidEmail s = true <->
  exists u v w, s = u ++ 64%N :: v ++ 46%N :: w /\
    (u <> [] /\ forallb notSpaceAt u = true) /\
    (v <> [] /\ forallb notSpaceAt v = true) /\
    (w <> [] /\ forallb notSpaceAt w = true).
Proof.
  unfold isValidEmail, emailRegex. rewrite test_spec. split.
  - intros H.
    apply matches_cat_inv in H as (u & s1 & -> & Hu & H).
    apply matches_cat_inv in H as (a & s2 & -> & Ha & H).
    apply matches_cat_inv in H as (v & s3 & -> & Hv & H).
    apply matches_cat_inv in H as (d & w & -> & Hd & Hw).
    apply matches_class_inv in Ha as (ca & -> & Hca).
    apply matches_class_inv in Hd as (cd & -> & Hcd).
    apply N.eqb_eq in Hca, Hcd. subst ca cd.
    apply matches_plus_class in Hu, Hv, Hw.
    exists u, v, w. simpl. auto.
  - intros (u & v & w & -> & Hu & Hv & Hw).
    apply matches_plus_class in Hu, Hv, Hw.
    constructor; auto.
    change (64%N :: v ++ 46%N :: w) with ([64%N] ++ v ++ [46%N] ++ w).
    constructor; [now constructor|].
    constructor; auto.
    constructor; [now constructor|auto].
Qed.

Lemma split_unique (a : N) u : forall v u' v',
  u ++ a :: v = u' ++ a :: v' -> ~ In a u' -> ~ In a v' -> u = u' /\ v = v'.
Proof.
  induction u as [|x u IH]; intros v u' v' H Hu Hv.
  - destruct u' as [|y u']; simpl in H.
    + injection H as ->. auto.
    + injection H as <- _. exfalso. apply Hu. now left.
  - destruct u' as [|y u']; simpl in H.
    + injection H as -> <-. exfalso. apply Hv. apply in_elt.
    + injection H as <- H. apply IH in H as [-> ->]; auto.
      intros Hin. apply Hu. now right.
Qed.

(** A string that validates once the white space around it is stripped has
    an [@], and a [.] after every [@]. *)
Lemma valid_trim_shape s :
  isValidEmail (trim s) = true ->
  In 64%N s /\ forall u v, s = u ++ 64%N :: v -> In 46%N v.
Proof.
  intros H. apply isValidEmail_iff in H as (u' & v' & w' & Ht & [_ Hu] & [_ Hv] & [_ Hw]).
  destruct (trim_spec s) as (a & b & Hs & Ha & Hb).
  rewrite Ht in Hs.
  assert (Hs' : s = (a ++ u') ++ 64%N :: (v' ++ 46%N :: w' ++ b)).
  { rewrite Hs. rewrite <- !app_assoc. simpl. rewrite <- !app_assoc. reflexivity. }
  apply whitespace_no_at in Ha, Hb. apply notSpaceAt_no_at in Hu, Hv, Hw.
  split.
  - rewrite Hs'. apply in_elt.
  - intros u v Huv. rewrite Hs' in Huv. symmetry in Huv.
    apply split_unique in Huv as [_ ->].
    + apply in_elt.
    + intros Hin. apply in_app_or in Hin as [?|?]; auto.
    + intros Hin. apply in_app_or in Hin as [?|Hin]; auto.
      destruct Hin as [?|Hin]; [discriminate|].
      apply in_app_or in Hin as [?|?]; auto.
Qed.

Lemma valid_shape s :
  isValidEmail s = true ->
  In 64%N s /\ forall u v, s = u ++ 64%N :: v -> In 46%N v.
Proof.
  intros H. apply isValidEmail_iff in H as (u' & v' & w' & -> & [_ Hu] & [_ Hv] & [_ Hw]).
  apply notSpaceAt_no_at in Hu, Hv, Hw.
  split; [apply in_elt|].
  intros u v Huv. symmetry in Huv.
  apply split_unique in Huv as [_ ->]; auto.
  - apply in_elt.
  - intros Hin. apply in_app_or in Hin as [?|Hin]; auto.
    destruct Hin as [?|Hin]; [discriminate|auto].
Qed.

Lemma verdict_email fd :
  type fd = "email" -> fst (verdict fd) = isValidEmail (trim (value fd)).
Proof.
  intros H. unfold verdict. rewrite H. simpl.
  destruct (isValidEmail (trim (value fd))); reflexivity.
Qed.

Lemma not_valid_of_lacks s :
  noAt s \/ noDomainDot s -> isValidEmail s = false /\ isValidEmail (trim s) = false.
Proof.
  intros H. split.
  - destruct (isValidEmail s) eqn:E; auto.
    apply valid_shape in E as [Hat Hdot].
    destruct H as [H|(u & v & Hs & Hv)]; [contradiction|]. exfalso. eauto.
  - destruct (isValidEmail (trim s)) eqn:E; auto.
    apply valid_trim_shape in E as [Hat Hdot].
    destruct H as [H|(u & v & Hs & Hv)]; [contradiction|]. exfalso. eauto.
Qed.

(** C4: for every field of type email, a value with no [@], or with no [.]
    in the part after an [@], fails email validation, both as the pattern
    test [isValidEmail] on the value and as the verdict of [validateField]
    (which trims the value first); the value [user@example.com] passes
    both. *)
Theorem email_validation (fd : Field) (Hty : type fd = "email") :
  (noAt (value fd) \/ noDomainDot (value fd) ->
     isValidEmail (value fd) = false /\ fst (verdict fd) = false) /\
  (value fd = of_ascii "user@example.com" ->
     isValidEmail (value fd) = true /\ verdict fd = (true, "")).
Proof.
  split.
  - intros H. rewrite (verdict_email fd Hty). now apply not_valid_of_lacks.
  - intros H. unfold verdict. rewrite Hty, H. split; reflexivity.
Qed.

Lemma email_validation_witness :
  fst (verdict (Examples.emailField "user.example.com")) = false /\
  fst (verdict (Examples.emailField "user@examplecom")) = false /\
  verdict (Examples.emailField "user@example.com") = (true, "").
Proof.
  split; [|split].
  - apply (proj1 (email_validation (Examples.emailField "user.example.com") eq_refl)).
    left. unfold noAt. simpl. intuition discriminate.
  - apply (proj1 (email_validation (Examples.emailField "user@examplecom") eq_refl)).
    right. exists (of_ascii "user"), (of_ascii "examplecom").
    split; [reflexivity|]. simpl. intuition discriminate.
  - apply (proj2 (email_validation (Examples.emailField "user@example.com") eq_refl)).
    reflexivity.
Defined.

End EmailFacts.

(** ** Sidebar *)
Section SidebarFacts.
Import Dom Sidebar.

Lemma hasClass_toggle_twice t e :
  hasClass t (classToggle t (classToggle t e)) = hasClass t e.
Proof.
  unfold hasClass, classToggle, withClasses. simpl.
  rewrite !contains_toggle, String.eqb_refl. apply negb_involutive.
Qed.

Lemma hasClass_toggle_other t u e :
  u <> t -> hasClass u (classToggle t e) = hasClass u e.
Proof.
  intros Hne. unfold hasClass, classToggle, withClasses. cbn [classList].
  rewrite contains_toggle. now destruct (String.eqb_spec u t).
Qed.

(** C7, as amended: with the viewport class unchanged, toggling twice
    restores the open flag of the sidebar and whether it is collapsed, from
    every starting state.  On the desktop viewport class it restores every
    mark; on the mobile viewport class it restores each mark of the open
    state (the expanded class of the sidebar, the active class of the
    overlay and of the hamburger, the page scroll lock) that agreed with
    the open flag. *)
Theorem toggle_twice (w : World) :
  let w2 := toggle (toggle w) in
  isMobile (st w2) = isMobile (st w) /\
  isOpen w2 = isOpen w /\
  collapsed w2 = collapsed w /\
  (isMobile (st w) = false \/ expanded w = isOpen w -> expanded w2 = expanded w) /\
  (isMobile (st w) = false \/ overlayActive w = isOpen w ->
     overlayActive w2 = overlayActive w) /\
  (isMobile (st w) = false \/ hamburgerActive w = isOpen w ->
     hamburgerActive w2 = hamburgerActive w) /\
  (isMobile (st w) = false \/ bodyOverflow w = (if isOpen w then "hidden" else "") ->
     bodyOverflow w2 = bodyOverflow w).
Proof.
  destruct w as [[cur ci rt m] sb hb ov o nl bo ae hf].
  unfold toggle, open, close, toggleDesktop, collapsed, expanded, overlayActive,
    hamburgerActive; simpl.
  destruct m.
  - destruct o, sb as [sb|], ov as [ov|], hb as [hb|]; simpl;
      repeat split; try reflexivity;
      try (intros [H|H]; [discriminate|]);
      repeat first [ rewrite hasClass_classAdd | rewrite hasClass_classRemove ];
      simpl; rewrite ?andb_false_r, ?orb_true_r, ?andb_true_r, ?orb_false_r;
      congruence.
  - destruct sb as [sb|]; simpl; repeat split; try reflexivity;
      try (intros _);
      repeat first [ rewrite hasClass_toggle_twice
                   | rewrite hasClass_toggle_other by discriminate ];
      reflexivity.
Qed.

Lemma toggle_twice_witness :
  expanded (toggle (toggle Examples.openMobileSidebar)) = true /\
  hamburgerActive (toggle (toggle Examples.openMobileSidebar)) = true /\
  bodyOverflow (toggle (toggle Examples.openMobileSidebar)) = "hidden".
Proof.
  destruct (toggle_twice Examples.openMobileSidebar) as (_ & _ & _ & He & _ & Hh & Hb).
  rewrite He, Hh, Hb by (right; reflexivity). repeat split.
Defined.

(** C7 as stated fails on marks that disagree with the open flag.  After a
    sidebar opened on the mobile viewport class has seen a resize to a
    desktop width and a resize back, the flag says closed while the sidebar
    and the hamburger still carry their marks; two toggles then take both
    marks away.  Likewise for an overlay that is active in the markup, and
    for a scroll lock that something else holds when the sidebar is
    constructed. *)
Lemma toggle_twice_loses_marks :
  let w := resizeSettled 500 (resizeSettled 1024 Examples.openMobileSidebar) in
  let page ov overflow :=
    SidebarEvents.construct Examples.mobile
      (Some (mkElement ["sidebar"] [("id", "sidebar")] ""))
      (Some (mkElement ["hamburger"] [("id", "hamburger")] ""))
      (Some ov) true overflow FocusBody true in
  let w1 := page (mkElement ["overlay"; "active"] [("id", "overlay")] "") "" in
  let w2 := page (mkElement ["overlay"] [("id", "overlay")] "") "hidden" in
  (isMobile (st w) = true /\ isMobile (st (toggle (toggle w))) = true /\
   isOpen w = false /\ isOpen (toggle (toggle w)) = false /\
   expanded w = true /\ expanded (toggle (toggle w)) = false /\
   hamburgerActive w = true /\ hamburgerActive (toggle (toggle w)) = false) /\
  (isMobile (st w1) = true /\ isOpen w1 = false /\
   overlayActive w1 = true /\ overlayActive (toggle (toggle w1)) = false) /\
  (isMobile (st w2) = true /\ isOpen w2 = false /\
   bodyOverflow w2 = "hidden" /\ bodyOverflow (toggle (toggle w2)) = "").
Proof. cbv zeta. repeat split. Qed.

End SidebarFacts.

(** ** Image modal *)
Section ImageModalFacts.
Import Dom ImageModal.

(** C8: when the trigger button has no [data-image] attribute, [open]
    leaves the whole modal state as it was: the modal, its content region,
    the scroll lock and the focus. *)
Theorem open_without_source (button : Element) (w : World)
  (Hsrc : getAttribute "data-image" button = None) :
  open button w = w.
Proof. unfold open. rewrite Hsrc. reflexivity. Qed.

Lemma open_without_source_witness :
  open Examples.bareButton Examples.closedModal = Examples.closedModal.
Proof. apply (open_without_source Examples.bareButton Examples.closedModal). reflexivity. Defined.

(** With a source and a content region, [open] shows the placeholder, locks
    the page scroll and opens the modal. *)
Lemma open_with_source (button : Element) (w : World) (s : string) (c : Content) :
  getAttribute "data-image" button = Some s -> s <> "" -> modalContent w = Some c ->
  modalContent (open button w) = Some Loading /\
  bodyOverflow (open button w) = "hidden" /\
  (forall m, modal w = Some m ->
     exists m', modal (open button w) = Some m' /\ hasClass "open" m' = true).
Proof.
  intros Hs Hne Hc. unfold open. rewrite Hs, Hc.
  destruct (String.eqb_spec s ""); [contradiction|]. simpl. repeat split.
  intros m ->. simpl. eexists. split; [reflexivity|].
  rewrite hasClass_classAdd. apply orb_true_r.
Qed.

End ImageModalFacts.

(** ** Carousel *)
Section CarouselFacts.
Import Dom Carousel.
Local Open Scope Z_scope.

Lemma filter_eqb_seq_nil (c a n : nat) :
  (c < a)%nat -> List.filter (fun i => Z.of_nat i =? Z.of_nat c) (seq a n) = [].
Proof.
  revert a. induction n as [|n IH]; intros a H; simpl; auto.
  destruct (Z.eqb_spec (Z.of_nat a) (Z.of_nat c)); [lia|]. apply IH. lia.
Qed.

Lemma filter_eqb_seq (c a n : nat) :
  (a <= c < a + n)%nat -> List.filter (fun i => Z.of_nat i =? Z.of_nat c) (seq a n) = [c].
Proof.
  revert a. induction n as [|n IH]; intros a H; simpl; [lia|].
  destruct (Z.eqb_spec (Z.of_nat a) (Z.of_nat c)) as [E|E].
  - apply Nat2Z.inj in E. subst a. f_equal. apply filter_eqb_seq_nil. lia.
  - apply IH. lia.
Qed.

Lemma updateDots_lookup w i d :
  dots (updateDots w) !! i = Some d -> hasClass "active" d = (Z.of_nat i =? current w).
Proof.
  unfold updateDots. simpl. rewrite list_lookup_imap.
  destruct (dots w !! i) as [d0|]; simpl; [|discriminate].
  intros [= <-]. unfold hasClass, classToggleForce. simpl.
  apply contains_toggle_force.
Qed.

Lemma activeDots_updateDots w :
  0 <= current w < Z.of_nat (length (dots w)) ->
  activeDots (updateDots w) = [Z.to_nat (current w)].
Proof.
  intros H. unfold activeDots.
  replace (length (dots (updateDots w))) with (length (dots w))
    by (unfold updateDots; simpl; now rewrite length_imap).
  rewrite <- (filter_eqb_seq (Z.to_nat (current w)) 0 (length (dots w))) by lia.
  apply filter_ext_in. intros i Hi. apply in_seq in Hi.
  rewrite Z2Nat.id by lia.
  destruct (dots (updateDots w) !! i) as [d|] eqn:E.
  - now apply updateDots_lookup.
  - apply lookup_ge_None in E. unfold updateDots in E. simpl in E.
    rewrite length_imap in E. lia.
Qed.

Lemma effectiveIndex_range k n : 1 <= n -> 0 <= effectiveIndex k n < n.
Proof.
  intros H. unfold effectiveIndex.
  destruct (Z.ltb_spec k 0); rewrite Z.geb_leb;
    match goal with |- context [?a <=? ?b] => destruct (Z.leb_spec a b) end; lia.
Qed.

Lemma effectiveIndex_cases k n :
  1 <= n ->
  (k < 0 -> effectiveIndex k n = n - 1) /\
  (n <= k -> effectiveIndex k n = 0) /\
  (0 <= k < n -> effectiveIndex k n = k).
Proof.
  intros H. unfold effectiveIndex.
  destruct (Z.ltb_spec k 0); rewrite Z.geb_leb;
    match goal with |- context [?a <=? ?b] => destruct (Z.leb_spec a b) end; lia.
Qed.

Lemma effectiveIndex_spec_index k n :
  2 <= n -> -1 <= k <= n -> effectiveIndex k n = spec_index k n.
Proof.
  intros Hn Hk. destruct (effectiveIndex_cases k n) as (Hneg & Hhi & Hmid); [lia|].
  unfold spec_index.
  assert (k = -1 \/ 0 <= k < n \/ k = n) as [->|[Hin| ->]] by lia.
  - rewrite Hneg by lia.
    change (-1) with (- (1)). rewrite Z.rem_opp_l by lia.
    rewrite (Z.rem_small 1 n) by lia.
    rewrite Z.rem_small; lia.
  - rewrite Hmid by lia. rewrite (Z.rem_small k n) by lia.
    rewrite Z.rem_mod_nonneg by lia.
    rewrite <- (Z.mul_1_l n) at 1. rewrite Z.mod_add by lia.
    rewrite Z.mod_small; lia.
  - rewrite Hhi by lia. rewrite Z.rem_same by lia. simpl.
    rewrite Z.rem_same; lia.
Qed.

(** What [goToSlide] does when there is a slide. *)
Lemma goToSlide_ok k w :
  slides w <> [] ->
  exists w', goToSlide k w = Some w' /\
    current w' = effectiveIndex k (slideCount w) /\
    length (slides w') = length (slides w) /\
    dots w' = dots (updateDots (withState (setCurrent (effectiveIndex k (slideCount w))) w)) /\
    startX w' = startX w /\ currentX w' = currentX w /\
    carouselInterval (st w') = carouselInterval (st w).
Proof.
  intros H. unfold goToSlide. destruct (slides w) as [|s0 rest] eqn:E; [congruence|].
  eexists. split; [reflexivity|]. unfold slideCount, effectiveIndex, current. rewrite E.
  simpl. rewrite length_imap. repeat split; reflexivity.
Qed.

Lemma goToSlide_none k w : slides w = [] -> goToSlide k w = None.
Proof. intros H. unfold goToSlide. now rewrite H. Qed.

Lemma slides_nonempty w : 1 <= slideCount w -> slides w <> [].
Proof. unfold slideCount. destruct (slides w); simpl; [lia|discriminate]. Qed.

Lemma goToSlide_range k w :
  1 <= slideCount w ->
  exists w', goToSlide k w = Some w' /\ slideCount w' = slideCount w /\ inRange w'.
Proof.
  intros H. destruct (goToSlide_ok k w (slides_nonempty w H)) as (w' & Hgo & Hcur & Hlen & _).
  exists w'. split; [exact Hgo|]. unfold inRange, slideCount in *. rewrite Hlen, Hcur.
  split; [reflexivity|]. now apply effectiveIndex_range.
Qed.

(** C1, as amended: with at least two slides, [goToSlide(k)] sets the
    current index to [N - 1] when [k < 0], to [0] when [k >= N] and to [k]
    otherwise; this is [((k % N) + N) % N] for every [k] from [-1] to [N],
    the requests the carousel makes of itself. *)
Theorem goToSlide_effective_index (w : World) (k : Z)
  (HN : (2 <= length (slides w))%nat) :
  exists w', goToSlide k w = Some w' /\
    (k < 0 -> current w' = slideCount w - 1) /\
    (slideCount w <= k -> current w' = 0) /\
    (0 <= k < slideCount w -> current w' = k) /\
    (-1 <= k <= slideCount w -> current w' = spec_index k (slideCount w)).
Proof.
  assert (Hn : 2 <= slideCount w) by (unfold slideCount; lia).
  destruct (goToSlide_ok k w) as (w' & Hgo & Hcur & _); [apply slides_nonempty; lia|].
  exists w'. split; [exact Hgo|]. rewrite Hcur.
  destruct (effectiveIndex_cases k (slideCount w)) as (H1 & H2 & H3); [lia|].
  repeat split; auto. intros Hk. now apply effectiveIndex_spec_index.
Qed.

Lemma goToSlide_effective_index_witness :
  exists w', goToSlide (-1) Examples.carousel3 = Some w' /\ current w' = 2.
Proof.
  destruct (goToSlide_effective_index Examples.carousel3 (-1)) as (w' & Hgo & Hneg & _).
  - simpl. lia.
  - exists w'. split; [exact Hgo|]. rewrite Hneg; [reflexivity|lia].
Defined.

(** C1 as stated fails: with three slides, [goToSlide(5)] settles on index
    [0] where [((5 % 3) + 3) % 3] is [2], and [goToSlide(-2)] on index [2]
    where [((-2 % 3) + 3) % 3] is [1]. *)
Lemma goToSlide_not_modular :
  slideCount Examples.carousel3 = 3 /\
  (exists w', goToSlide 5 Examples.carousel3 = Some w' /\
     current w' = 0 /\ spec_index 5 3 = 2 /\
     current w' <> spec_index 5 (slideCount Examples.carousel3)) /\
  (exists w', goToSlide (-2) Examples.carousel3 = Some w' /\
     current w' = 2 /\ spec_index (-2) 3 = 1 /\
     current w' <> spec_index (-2) (slideCount Examples.carousel3)).
Proof.
  split; [reflexivity|]. split; eexists; (split; [reflexivity|]);
    repeat split; try reflexivity; vm_compute; discriminate.
Qed.

(** *** Operations that do not navigate *)

Lemma stopAutoAdvance_frame w :
  slides (stopAutoAdvance w) = slides w /\ current (stopAutoAdvance w) = current w /\
  startX (stopAutoAdvance w) = startX w /\ currentX (stopAutoAdvance w) = currentX w /\
  dots (stopAutoAdvance w) = dots w.
Proof. unfold stopAutoAdvance. destruct (carouselInterval (st w)); repeat split. Qed.

Lemma startAutoAdvance_frame w :
  slides (startAutoAdvance w) = slides w /\ current (startAutoAdvance w) = current w /\
  startX (startAutoAdvance w) = startX w /\ currentX (startAutoAdvance w) = currentX w /\
  dots (startAutoAdvance w) = dots w.
Proof.
  unfold startAutoAdvance. destruct (stopAutoAdvance_frame w) as (H1 & H2 & H3 & H4 & H5).
  unfold current in *. simpl. rewrite H1, H3, H4, H5. repeat split. exact H2.
Qed.

Lemma handleStart_frame x w :
  slides (handleStart x w) = slides w /\ current (handleStart x w) = current w /\
  startX (handleStart x w) = x /\ currentX (handleStart x w) = currentX w.
Proof.
  unfold handleStart.
  destruct (stopAutoAdvance_frame (withGesture x (currentX w) w)) as (H1 & H2 & H3 & H4 & _).
  rewrite H1, H2, H3, H4. repeat split.
Qed.

Lemma handleMove_frame x w :
  slides (handleMove x w) = slides w /\ current (handleMove x w) = current w /\
  startX (handleMove x w) = startX w /\
  (startX w = 0 -> currentX (handleMove x w) = currentX w).
Proof.
  unfold handleMove. destruct (Z.eqb_spec (startX w) 0); repeat split; auto.
  intros; contradiction.
Qed.

Lemma moves_frame xs : forall w,
  let p := fold_left (fun w x => handleMove x w) xs w in
  slides p = slides w /\ current p = current w /\ startX p = startX w /\
  (startX w = 0 -> currentX p = currentX w).
Proof.
  induction xs as [|x xs IH]; intros w; simpl; [repeat split|].
  destruct (handleMove_frame x w) as (H1 & H2 & H3 & H4).
  destruct (IH (handleMove x w)) as (I1 & I2 & I3 & I4).
  rewrite I1, I2, I3, H1, H2, H3. repeat split.
  intros H0. rewrite I4 by congruence. auto.
Qed.

Lemma pressAndMove_frame x0 xs w :
  let p := pressAndMove x0 xs w in
  slides p = slides w /\ current p = current w /\ startX p = x0 /\
  (x0 = 0 -> currentX p = currentX w).
Proof.
  unfold pressAndMove.
  destruct (moves_frame xs (handleStart x0 w)) as (I1 & I2 & I3 & I4).
  destruct (handleStart_frame x0 w) as (H1 & H2 & H3 & H4).
  simpl. rewrite I1, I2, I3, H1, H2, H3. repeat split.
  intros H0. rewrite I4 by congruence. auto.
Qed.

Lemma last_cons_default {A} (xs : list A) : forall x d, List.last (x :: xs) d = List.last xs x.
Proof.
  induction xs as [|a xs IH]; intros x d; [reflexivity|].
  change (List.last (x :: a :: xs) d) with (List.last (a :: xs) d).
  now rewrite (IH a d), (IH a x).
Qed.

Lemma moves_last xs : forall w,
  startX w <> 0 ->
  currentX (fold_left (fun w x => handleMove x w) xs w) = List.last xs (currentX w).
Proof.
  induction xs as [|x xs IH]; intros w Hs; [reflexivity|].
  rewrite last_cons_default. simpl fold_left.
  assert (Hm : handleMove x w = withGesture (startX w) x w).
  { unfold handleMove. destruct (Z.eqb_spec (startX w) 0); [contradiction|reflexivity]. }
  rewrite Hm, IH by exact Hs. reflexivity.
Qed.

(** While a gesture is in progress, [currentX] is the position of the last
    move, and what it was before the press when there was no move. *)
Lemma pressAndMove_currentX x0 xs w :
  x0 <> 0 -> currentX (pressAndMove x0 xs w) = List.last xs (currentX w).
Proof.
  intros H. unfold pressAndMove.
  destruct (handleStart_frame x0 w) as (_ & _ & H3 & H4).
  rewrite moves_last by congruence. now rewrite H4.
Qed.

Lemma frame_range w w' :
  slides w' = slides w -> current w' = current w ->
  slideCount w' = slideCount w /\ (inRange w -> inRange w').
Proof. unfold inRange, slideCount. intros -> ->. auto. Qed.

Lemma rearm_frame w :
  let w' := startAutoAdvance (withGesture 0 0 w) in
  slides w' = slides w /\ current w' = current w /\ atRest w' /\ dots w' = dots w.
Proof.
  destruct (startAutoAdvance_frame (withGesture 0 0 w)) as (H1 & H2 & H3 & H4 & H5).
  cbv zeta. unfold atRest. rewrite H1, H2, H3, H4, H5. repeat split.
Qed.

(** *** The swipe threshold *)

Lemma handleEnd_swipe w :
  1 <= slideCount w -> startX w <> 0 ->
  exists w', handleEnd w = Some w' /\ atRest w' /\ slideCount w' = slideCount w /\
    (Z.abs (startX w - currentX w) <= 50 -> current w' = current w) /\
    (50 < startX w - currentX w ->
       current w' = effectiveIndex (current w + 1) (slideCount w)) /\
    (startX w - currentX w < -50 ->
       current w' = effectiveIndex (current w - 1) (slideCount w)).
Proof.
  intros HN Hs. unfold handleEnd, threshold.
  destruct (Z.eqb_spec (startX w) 0) as [|_]; [contradiction|].
  cbv zeta. rewrite !Z.gtb_ltb.
  destruct (Z.ltb_spec 50 (Z.abs (startX w - currentX w))) as [Hbig|Hsmall].
  - destruct (Z.ltb_spec 0 (startX w - currentX w)) as [Hpos|Hneg].
    + unfold next; fold (current w).
      destruct (goToSlide_ok (current w + 1) w (slides_nonempty w HN))
        as (w1 & -> & Hcur & Hlen & _).
      destruct (rearm_frame w1) as (R1 & R2 & R3 & _).
      eexists. split; [reflexivity|]. split; [exact R3|].
      unfold slideCount in *. rewrite R1, R2, Hlen, Hcur.
      repeat split; intros; try reflexivity; lia.
    + unfold prev; fold (current w).
      destruct (goToSlide_ok (current w - 1) w (slides_nonempty w HN))
        as (w1 & -> & Hcur & Hlen & _).
      destruct (rearm_frame w1) as (R1 & R2 & R3 & _).
      eexists. split; [reflexivity|]. split; [exact R3|].
      unfold slideCount in *. rewrite R1, R2, Hlen, Hcur.
      repeat split; intros; try reflexivity; lia.
  - destruct (rearm_frame w) as (R1 & R2 & R3 & _).
    eexists. split; [reflexivity|]. split; [exact R3|].
    unfold slideCount in *. rewrite R1, R2.
    repeat split; intros; try reflexivity; lia.
Qed.

Lemma step_forward c n :
  2 <= n -> 0 <= c < n ->
  effectiveIndex (c + 1) n = (c + 1) mod n /\ effectiveIndex (c + 1) n <> c.
Proof.
  intros Hn Hc. destruct (effectiveIndex_cases (c + 1) n) as (_ & Hhi & Hmid); [lia|].
  destruct (Z.eq_dec (c + 1) n) as [E|E].
  - rewrite Hhi by lia. rewrite E, Z.mod_same by lia. lia.
  - rewrite Hmid by lia. rewrite Z.mod_small by lia. lia.
Qed.

Lemma step_backward c n :
  2 <= n -> 0 <= c < n ->
  effectiveIndex (c - 1) n = (c - 1) mod n /\ effectiveIndex (c - 1) n <> c.
Proof.
  intros Hn Hc. destruct (effectiveIndex_cases (c - 1) n) as (Hneg & _ & Hmid); [lia|].
  destruct (Z.eq_dec c 0) as [E|E].
  - rewrite Hneg by lia. split; [|lia].
    apply Z.mod_unique with (q := -1); lia.
  - rewrite Hmid by lia. rewrite Z.mod_small by lia. lia.
Qed.

(** X30: a gesture on the track with at least one move, pressed at a page
    coordinate other than [0], whatever the handlers held before: with
    [delta] the press position minus the position of the last move, when
    [|delta| <= 50] the current index is unchanged; when [delta > 50] it
    becomes that of [next], one step forward; when [delta < -50] it becomes
    that of [prev], one step back; the step wraps around the ends.  The
    release leaves no gesture in progress. *)
Theorem swipe_with_move (w : World) (x0 x : Z) (xs : list Z)
  (HN : (2 <= length (slides w))%nat) (Hr : inRange w) (Hx0 : x0 <> 0) :
  let delta := x0 - x in
  exists w', gesture x0 (xs ++ [x]) w = Some w' /\
    atRest w' /\
    (Z.abs delta <= 50 -> current w' = current w) /\
    (50 < delta ->
       option_map current (next w) = Some (current w') /\
       current w' = (current w + 1) mod slideCount w /\
       current w' <> current w) /\
    (delta < -50 ->
       option_map current (prev w) = Some (current w') /\
       current w' = (current w - 1) mod slideCount w /\
       current w' <> current w).
Proof.
  cbv zeta. set (p := pressAndMove x0 (xs ++ [x]) w).
  assert (Hn : 2 <= slideCount w) by (unfold slideCount; lia).
  destruct (pressAndMove_frame x0 (xs ++ [x]) w) as (P1 & P2 & P3 & _).
  fold p in P1, P2, P3.
  assert (Pn : slideCount p = slideCount w) by (unfold slideCount; now rewrite P1).
  assert (Pc : currentX p = x).
  { unfold p. rewrite pressAndMove_currentX by exact Hx0. apply List.last_last. }
  unfold gesture. fold p.
  destruct (handleEnd_swipe p) as (w' & Hend & Hrest' & _ & Hsmall & Hfwd & Hback);
    [lia | congruence |].
  rewrite P3, Pc, P2, Pn in *.
  exists w'. split; [exact Hend|]. split; [exact Hrest'|].
  split; [exact Hsmall|]. split; intros Hd.
  - destruct (step_forward (current w) (slideCount w) Hn Hr) as [Hmod Hne].
    rewrite (Hfwd Hd), <- Hmod. split; [|auto].
    unfold next; fold (current w).
    destruct (goToSlide_ok (current w + 1) w) as (w1 & -> & Hcur & _);
      [apply slides_nonempty; lia|].
    simpl. now rewrite Hcur.
  - destruct (step_backward (current w) (slideCount w) Hn Hr) as [Hmod Hne].
    rewrite (Hback Hd), <- Hmod. split; [|auto].
    unfold prev; fold (current w).
    destruct (goToSlide_ok (current w - 1) w) as (w1 & -> & Hcur & _);
      [apply slides_nonempty; lia|].
    simpl. now rewrite Hcur.
Qed.

Lemma swipe_with_move_witness :
  exists w', gesture 400 [380; 310] Examples.carousel3 = Some w' /\ current w' = 1.
Proof.
  destruct (swipe_with_move Examples.carousel3 400 310 [380])
    as (w' & Hg & _ & _ & Hfwd & _).
  - simpl. lia.
  - unfold inRange. vm_compute. split; [discriminate|reflexivity].
  - discriminate.
  - exists w'. split; [exact Hg|].
    destruct Hfwd as (_ & -> & _); [vm_compute; reflexivity|reflexivity].
Defined.

(** C2: a press on the track released without any move (a click) is taken
    for a swipe.  [handleMove] is the only writer of [currentX], so at the
    release it still holds [0], and [startX - currentX] is the page
    coordinate of the press: on the three-slide carousel at index [0], a
    click at [pageX = 300] advances to index [1], although the pointer did
    not move; a click at [pageX = 40] changes nothing. *)
Theorem click_changes_slide :
  current Examples.carousel3 = 0 /\
  currentX (pressAndMove 300 [] Examples.carousel3) = 0 /\
  option_map current (gesture 300 [] Examples.carousel3) = Some 1 /\
  option_map current (gesture 40 [] Examples.carousel3) = Some 0.
Proof. repeat split. Qed.

(** *** The dots *)

Lemma construct_dots s tr sl :
  (2 <= length sl)%nat -> length (dots (construct s tr sl true)) = length sl.
Proof.
  intros H. unfold construct.
  destruct (Nat.ltb_spec 1 (length sl)) as [_|]; [|lia].
  unfold init. destruct (startAutoAdvance_frame (createDots (mkWorld s tr sl true [] 0 0)))
    as (_ & _ & _ & _ & ->).
  unfold createDots, updateDots. simpl. now rewrite !length_imap.
Qed.

Lemma activeDots_ext w w' : dots w' = dots w -> activeDots w' = activeDots w.
Proof. unfold activeDots. now intros ->. Qed.

(** The carousel the constructor builds from the initial state, on a page
    with at least two slides and a dots container: one dot per slide, the
    first one active, the index in range, no gesture in progress. *)
Lemma construct_ready s tr sl :
  currentTestimonial s = 0 -> (2 <= length sl)%nat ->
  let w := construct s tr sl true in
  slides w = sl /\ inRange w /\ atRest w /\
  length (dots w) = length (slides w) /\ activeDots w = [0%nat].
Proof.
  intros Hs Hl. cbv zeta. unfold construct.
  destruct (Nat.ltb_spec 1 (length sl)) as [_|]; [|lia].
  unfold init. set (w0 := mkWorld s tr sl true [] 0 0).
  destruct (startAutoAdvance_frame (createDots w0)) as (F1 & F2 & F3 & F4 & F5).
  set (w1 := withDots (imap (fun index _ => newDot index) sl) w0).
  assert (C : createDots w0 = updateDots w1) by reflexivity.
  assert (Hd : length (dots w1) = length sl) by (simpl; apply length_imap).
  unfold inRange, atRest, slideCount.
  rewrite (activeDots_ext _ _ F5), F1, F2, F3, F4, F5, C.
  split; [reflexivity|]. split; [|split; [|split]].
  - unfold current. simpl. rewrite Hs. lia.
  - split; reflexivity.
  - unfold updateDots. simpl. now rewrite !length_imap.
  - rewrite activeDots_updateDots; unfold current; simpl; rewrite Hs; [reflexivity|].
    rewrite length_imap. lia.
Qed.

Lemma goToSlide_dots k w :
  1 <= slideCount w -> length (dots w) = length (slides w) ->
  exists w', goToSlide k w = Some w' /\
    activeDots w' = [Z.to_nat (current w')] /\ inRange w' /\
    length (dots w') = length (slides w').
Proof.
  intros HN Hd.
  destruct (goToSlide_ok k w (slides_nonempty w HN)) as (w' & Hgo & Hcur & Hlen & Hdots & _).
  pose proof (effectiveIndex_range k (slideCount w) HN) as Hr.
  exists w'. split; [exact Hgo|]. split; [|split].
  - rewrite (activeDots_ext _ _ Hdots), activeDots_updateDots.
    + now rewrite Hcur.
    + unfold current, slideCount in *. simpl. rewrite Hd. exact Hr.
  - unfold inRange, slideCount in *. now rewrite Hlen, Hcur.
  - rewrite Hdots, Hlen. unfold updateDots. simpl. now rewrite length_imap.
Qed.

(** C6, as amended: on a carousel with at least one slide and one dot per
    slide, which is what the constructor builds on a page with two or more
    slides and the dots container ([construct_ready]) and what every action
    keeps, after every navigation action ([goToSlide], [next], [prev], a
    click on a dot) the dots that carry the active marker are exactly the
    one at the position of the current index. *)
Theorem one_active_dot (w : World) (a : Action)
  (HN : (1 <= length (slides w))%nat)
  (Hdots : length (dots w) = length (slides w))
  (Hen : enabled a w) :
  exists w', run a w = Some w' /\
    activeDots w' = [Z.to_nat (current w')] /\
    inRange w' /\
    length (dots w') = length (slides w').
Proof.
  assert (Hn : 1 <= slideCount w) by (unfold slideCount; lia).
  destruct a as [k| | |i]; simpl.
  - now apply goToSlide_dots.
  - now apply goToSlide_dots.
  - now apply goToSlide_dots.
  - simpl in Hen. apply lookup_lt_is_Some in Hen as [d ->]. now apply goToSlide_dots.
Qed.

Lemma one_active_dot_witness :
  exists w', run Prev Examples.carousel3 = Some w' /\ activeDots w' = [2%nat].
Proof.
  destruct (one_active_dot Examples.carousel3 Prev) as (w' & Hrun & Hact & _).
  - simpl. lia.
  - reflexivity.
  - exact I.
  - exists w'. split; [exact Hrun|]. rewrite Hact.
    injection Hrun as <-. reflexivity.
Defined.

(** C6 as stated fails where the constructor created no dots.  On a page
    without the dots container [createDots] returns at once: after [next]
    on three slides the index is [1] and no dot is active.  On a page with
    the container and a single slide the constructor does not initialise:
    after [goToSlide(0)] no dot is active either. *)
Lemma no_dots_no_active_dot :
  let w := construct Examples.desktop (Some TransformUnset)
             [Examples.slide; Examples.slide; Examples.slide] false in
  let w1 := construct Examples.desktop (Some TransformUnset) [Examples.slide] true in
  (exists w', run Next w = Some w' /\ current w' = 1 /\ activeDots w' = [] /\
     activeDots w' <> [Z.to_nat (current w')]) /\
  (exists w', run (GoToSlide 0) w1 = Some w' /\ current w' = 0 /\ activeDots w' = [] /\
     activeDots w' <> [Z.to_nat (current w')]).
Proof.
  cbv zeta. split; eexists; (split; [reflexivity|]);
    (split; [reflexivity|]); (split; [reflexivity|]); discriminate.
Qed.

(** *** The range of the index *)

Lemma handleEnd_range w :
  1 <= slideCount w ->
  exists w', handleEnd w = Some w' /\ slideCount w' = slideCount w /\
    (inRange w -> inRange w').
Proof.
  intros HN. unfold handleEnd, threshold.
  destruct (Z.eqb_spec (startX w) 0) as [|_]; [exists w; auto|].
  cbv zeta.
  assert (Hnav : forall k, exists w', match goToSlide k w with
                    | Some w0 => Some (startAutoAdvance (withGesture 0 0 w0))
                    | None => None
                    end = Some w' /\ slideCount w' = slideCount w /\ (inRange w -> inRange w')).
  { intros k. destruct (goToSlide_range k w HN) as (w1 & -> & Hc & Hr).
    destruct (rearm_frame w1) as (R1 & R2 & _).
    eexists. split; [reflexivity|].
    destruct (frame_range w1 _ R1 R2) as [F1 F2].
    split; [congruence | intros _; now apply F2]. }
  destruct (Z.abs (startX w - currentX w) >? 50).
  - destruct (startX w - currentX w >? 0); [apply (Hnav (current w + 1)) | apply (Hnav (current w - 1))].
  - destruct (rearm_frame w) as (R1 & R2 & _).
    eexists. split; [reflexivity|]. now apply frame_range.
Qed.

(** C9: with at least one slide, [goToSlide(k)] returns for every integer
    [k] and leaves the stored index within [0 <= index < N]; every listener
    of the carousel and the interval callback return, keep the number of
    slides, and preserve that range. *)
Theorem index_in_range (w : World) (HN : (1 <= length (slides w))%nat) :
  (forall k, exists w', goToSlide k w = Some w' /\
     slideCount w' = slideCount w /\ inRange w') /\
  (forall e, exists w', handle e w = Some w' /\
     slideCount w' = slideCount w /\ (inRange w -> inRange w')).
Proof.
  assert (Hn : 1 <= slideCount w) by (unfold slideCount; lia).
  assert (Hgo : forall k, exists w', goToSlide k w = Some w' /\
            slideCount w' = slideCount w /\ (inRange w -> inRange w')).
  { intros k. destruct (goToSlide_range k w Hn) as (w' & ? & ? & ?). eauto. }
  assert (Hid : exists w', Some w = Some w' /\
            slideCount w' = slideCount w /\ (inRange w -> inRange w')) by eauto.
  split; [intros k; now apply goToSlide_range|].
  intros [a| | | | | | |x|x| |]; simpl; unfold onTrack, next, prev, tick;
    try (destruct (track w); [|exact Hid]).
  - destruct a as [k| | |i]; simpl; unfold next, prev; auto.
    destruct (dots w !! i); auto.
  - apply Hgo.
  - apply Hgo.
  - destruct (stopAutoAdvance_frame w) as (H1 & H2 & _).
    eexists. split; [reflexivity|]. now apply frame_range.
  - destruct (startAutoAdvance_frame w) as (H1 & H2 & _).
    eexists. split; [reflexivity|]. now apply frame_range.
  - destruct (stopAutoAdvance_frame w) as (H1 & H2 & _).
    eexists. split; [reflexivity|]. now apply frame_range.
  - destruct (startAutoAdvance_frame w) as (H1 & H2 & _).
    eexists. split; [reflexivity|]. now apply frame_range.
  - destruct (handleStart_frame x w) as (H1 & H2 & _).
    eexists. split; [reflexivity|]. now apply frame_range.
  - destruct (handleMove_frame x w) as (H1 & H2 & _).
    eexists. split; [reflexivity|]. now apply frame_range.
  - now apply handleEnd_range.
  - destruct (carouselInterval (st w)); [unfold next; apply Hgo | exact Hid].
Qed.

Lemma index_in_range_witness :
  exists w', goToSlide (-7) Examples.carousel3 = Some w' /\ inRange w'.
Proof.
  destruct (proj1 (index_in_range Examples.carousel3 ltac:(simpl; lia)) (-7))
    as (w' & Hgo & _ & Hr).
  exists w'. split; [exact Hgo | exact Hr].
Defined.

End CarouselFacts.

(** ** Contact form *)
Section FormFacts.
Import Dom ContactForm.

Lemma verdict_data fd fd' : data fd = data fd' -> verdict fd = verdict fd'.
Proof.
  unfold data, verdict. intros H. injection H as H1 H2 H3 H4 H5.
  now rewrite H1, H2, H3.
Qed.

Lemma lookup_map_eq {A B} (f : A -> B) : forall (l l' : list A) j,
  List.map f l' = List.map f l -> option_map f (l' !! j) = option_map f (l !! j).
Proof.
  induction l as [|x l IH]; destruct l' as [|y l']; simpl; intros j H;
    try discriminate; auto.
  injection H as H1 H2. destruct j; simpl; [now rewrite H1 | auto].
Qed.

Lemma map_insert_same {A B} (f : A -> B) : forall (l : list A) i x y,
  l !! i = Some x -> f y = f x -> List.map f (<[i:=y]> l) = List.map f l.
Proof.
  induction l as [|z l IH]; intros i x y Hi Hf; [discriminate|].
  destruct i; simpl in *.
  - injection Hi as ->. now rewrite Hf.
  - f_equal. eauto.
Qed.

Lemma sameForm_refl w : sameForm w w.
Proof. unfold sameForm. auto 10. Qed.

Lemma sameForm_trans w1 w2 w3 : sameForm w1 w2 -> sameForm w2 w3 -> sameForm w1 w3.
Proof.
  unfold sameForm. intros (A1 & A2 & A3 & A4 & A5 & A6) (B1 & B2 & B3 & B4 & B5 & B6).
  repeat split; congruence.
Qed.

Lemma validAt_sameForm w w' : sameForm w w' -> forall j, validAt w' j = validAt w j.
Proof.
  intros [H _] j. unfold validAt.
  pose proof (lookup_map_eq data _ _ j H) as Hj.
  destruct (fields w' !! j), (fields w !! j); simpl in Hj; try discriminate; auto.
  assert (Hd : data f = data f0) by congruence.
  now rewrite (verdict_data _ _ Hd).
Qed.

Lemma setFieldValidity_sameForm i v m w : sameForm w (setFieldValidity i v m w).
Proof.
  unfold setFieldValidity. destruct (fields w !! i) as [fd|] eqn:E.
  - unfold sameForm. simpl. split; [|auto 10].
    now apply map_insert_same with (x := fd).
  - apply sameForm_refl.
Qed.

Lemma validateField_spec i w :
  sameForm w (fst (validateField i w)) /\ snd (validateField i w) = validAt w i.
Proof.
  unfold validateField, validAt. destruct (fields w !! i) as [fd|] eqn:E; simpl.
  - destruct (verdict fd) as [ok msg]. simpl.
    split; [apply setFieldValidity_sameForm | reflexivity].
  - split; [apply sameForm_refl | reflexivity].
Qed.

Lemma forallb_pointwise {A} (p q : A -> bool) l :
  (forall x, q x = p x) -> forallb q l = forallb p l.
Proof. intros H. induction l as [|x l IH]; simpl; [reflexivity|]. now rewrite H, IH. Qed.

Lemma validate_fold (l : list nat) : forall acc,
  sameForm (fst acc) (fst (fold_left validateStep l acc)) /\
  snd (fold_left validateStep l acc) = snd acc && forallb (validAt (fst acc)) l.
Proof.
  induction l as [|i l IH]; intros [w ok]; simpl.
  - split; [apply sameForm_refl | now rewrite andb_true_r].
  - destruct (validateField_spec i w) as [Hs Hv].
    unfold validateStep at 2 4. simpl.
    destruct (validateField i w) as [w1 ok1]. simpl in Hs, Hv.
    destruct (IH (w1, if ok1 then ok else false)) as [Is Iv]. simpl in Is, Iv.
    split; [eapply sameForm_trans; eauto|].
    rewrite Iv, <- Hv.
    rewrite (forallb_pointwise _ _ l (validAt_sameForm w w1 Hs)).
    destruct ok1, ok; reflexivity.
Qed.

Lemma validateAll_spec w :
  sameForm w (fst (validateAll w)) /\
  snd (validateAll w) = forallb (validAt w) (seq 0 (length (fields w))).
Proof. unfold validateAll. apply (validate_fold _ (w, true)). Qed.

Lemma validateAll_true w :
  Forall (fun fd => fst (verdict fd) = true) (fields w) -> snd (validateAll w) = true.
Proof.
  intros H. rewrite (proj2 (validateAll_spec w)). apply forallb_forall. intros i _.
  unfold validAt. destruct (fields w !! i) as [fd|] eqn:E; auto.
  rewrite Forall_forall in H. apply H.
  eapply list_elem_of_lookup_2; eauto.
Qed.

Lemma validateAll_false w i :
  (i < length (fields w))%nat -> validAt w i = false -> snd (validateAll w) = false.
Proof.
  intros Hi Hv. rewrite (proj2 (validateAll_spec w)).
  destruct (forallb (validAt w) (seq 0 (length (fields w)))) eqn:E; auto.
  rewrite forallb_forall in E. rewrite <- Hv. symmetry. apply E. apply in_seq. lia.
Qed.

Lemma map_value_data l l' :
  List.map data l' = List.map data l ->
  List.map value l' = List.map value l /\ List.map defaultValue l' = List.map defaultValue l.
Proof.
  revert l'. induction l as [|x l IH]; destruct l' as [|y l']; simpl; intros H;
    try discriminate; auto.
  injection H as H1 H2 H3 H4 H5 H6. destruct (IH _ H6) as [-> ->].
  now rewrite H3, H4.
Qed.

(** *** The toast *)

Lemma toast_show_error t e message :
  Toast.element t = Some e ->
  exists e', Toast.element (Toast.show message "error" t) = Some e' /\
    textContent e' = message /\ classList e' = ["toast"; "show"; "toast-error"].
Proof.
  intros H. unfold Toast.show, Toast.hide. rewrite H. simpl.
  eexists. split; [reflexivity|]. split; reflexivity.
Qed.

Lemma toast_show_success t e message :
  Toast.element t = Some e ->
  exists e', Toast.element (Toast.show_default message t) = Some e' /\
    textContent e' = message /\ classList e' = ["toast"; "show"; "toast-success"].
Proof.
  intros H. unfold Toast.show_default, Toast.show, Toast.hide. rewrite H. simpl.
  eexists. split; [reflexivity|]. split; reflexivity.
Qed.

(** *** The guarded submission *)

Lemma setFormState_ok s w sb rb :
  submitButton w = Some sb -> resetButton w = Some rb ->
  setFormState s w =
    (mkWorld (fields w) (parents w)
       (Some match s with
             | loading => mkButton true (classAdd "loading" (btn sb)) Sending
             | idle => mkButton false (classRemove "loading" (btn sb)) SendMessage
             end)
       (Some (mkButton match s with loading => true | idle => false end
                (btn rb) (innerHTML rb)))
       (toast w) (console w) (activeElement w), None).
Proof. intros Hs Hr. unfold setFormState. rewrite Hs, Hr. destruct s; reflexivity. Qed.

Lemma submitValid_ok outcome w sb rb :
  submitButton w = Some sb -> resetButton w = Some rb ->
  exists w', submitValid outcome w = (w', None) /\
    controlsIdle w' /\
    (exists rb', resetButton w' = Some rb' /\ innerHTML rb' = innerHTML rb) /\
    match outcome with
    | Resolved =>
        fields w' = fields (reset w) /\
        toast w' = Toast.show_default successMessage (toast w) /\
        console w' = console w
    | Rejected e =>
        fields w' = fields w /\
        toast w' = Toast.show failureMessage "error" (toast w) /\
        console w' = console w ++ [String.append "Form submission error: " e]
    end.
Proof.
  intros Hs Hr. unfold submitValid. rewrite (setFormState_ok loading w sb rb Hs Hr).
  unfold settle.
  assert (Hidle : hasClass "loading" (classRemove "loading" (classAdd "loading" (btn sb))) = false).
  { rewrite hasClass_classRemove. simpl. apply andb_false_r. }
  destruct outcome as [|e]; cbv iota zeta beta.
  - erewrite setFormState_ok by reflexivity.
    eexists. split; [reflexivity|]. split; [|split].
    + unfold controlsIdle. simpl. eauto 10.
    + simpl. eauto.
    + simpl. auto.
  - erewrite setFormState_ok by reflexivity.
    eexists. split; [reflexivity|]. split; [|split].
    + unfold controlsIdle. simpl. eauto 10.
    + simpl. eauto.
    + simpl. auto.
Qed.

(** Whatever the page has become while the promise was awaited, as long as
    the two buttons are there: the rest of [handleSubmit] raises nothing,
    leaves the controls idle, resets the fields when the promise resolved
    and leaves them alone when it rejected. *)
Lemma settle_ok outcome w sb rb :
  submitButton w = Some sb -> resetButton w = Some rb ->
  exists w', settle None outcome w = (w', None) /\
    controlsIdle w' /\
    match outcome with
    | Resolved => List.map value (fields w') = List.map defaultValue (fields w)
    | Rejected _ => fields w' = fields w
    end.
Proof.
  intros Hs Hr. unfold settle.
  assert (Hidle : hasClass "loading" (classRemove "loading" (btn sb)) = false).
  { rewrite hasClass_classRemove. simpl. apply andb_false_r. }
  destruct outcome as [|e]; cbv iota zeta beta.
  - erewrite setFormState_ok by (simpl; eassumption).
    eexists. split; [reflexivity|]. split.
    + unfold controlsIdle. simpl. eauto 10.
    + simpl. now rewrite map_map.
  - erewrite setFormState_ok by (simpl; eassumption).
    eexists. split; [reflexivity|]. split.
    + unfold controlsIdle. simpl. eauto 10.
    + reflexivity.
Qed.

(** C3, as amended: a submission in which every field validates, on a form
    that has its submit and reset buttons and a page that has its toast
    element, ends in exactly one of two ways.  When the awaited call resolves, every field is
    back at its default value and the success notification is shown.  When
    it rejects, every field keeps its value and the failure notification is
    shown.  Either way no exception escapes, both buttons are enabled again,
    the submit button shows its idle label without the busy marker, and the
    label of the reset button is the one it had. *)
Theorem submit_outcomes (w : World) (outcome : Settled) (sb rb : Button) (te : Element)
  (Hvalid : Forall (fun fd => fst (verdict fd) = true) (fields w))
  (Hsb : submitButton w = Some sb)
  (Hrb : resetButton w = Some rb)
  (Hte : Toast.element (toast w) = Some te) :
  exists w', handleSubmit outcome w = (w', None) /\
    ((outcome = Resolved /\
      List.map value (fields w') = List.map defaultValue (fields w) /\
      toastShows successMessage "success" w' /\
      ~ toastShows failureMessage "error" w')
     \/
     ((exists e, outcome = Rejected e) /\
      List.map value (fields w') = List.map value (fields w) /\
      toastShows failureMessage "error" w' /\
      ~ toastShows successMessage "success" w')) /\
    controlsIdle w' /\
    (exists rb', resetButton w' = Some rb' /\ innerHTML rb' = innerHTML rb).
Proof.
  destruct (validateAll_spec w) as [Hs _]. pose proof (validateAll_true w Hvalid) as Hok.
  unfold handleSubmit. destruct (validateAll w) as [w1 ok]. simpl in Hs, Hok. subst ok.
  destruct Hs as (D & S1 & S2 & S3 & _). simpl.
  destruct (map_value_data _ _ D) as [Dv Dd].
  destruct (submitValid_ok outcome w1 sb rb) as (w' & Hsub & Hidle & Hreset & Hout);
    [congruence | congruence |].
  exists w'. split; [exact Hsub|]. split; [|auto].
  destruct outcome as [|e]; [left | right]; destruct Hout as (Hf & Ht & _);
    rewrite S3 in Ht.
  - destruct (toast_show_success (toast w) te successMessage Hte) as (e' & He' & Htxt & Hcl).
    split; [reflexivity|]. split; [|split].
    + rewrite Hf. unfold reset. simpl. rewrite map_map. exact Dd.
    + exists e'. rewrite Ht. auto.
    + intros (e2 & He2 & Htxt2 & _). rewrite Ht, He' in He2.
      injection He2 as <-. rewrite Htxt in Htxt2. discriminate.
  - destruct (toast_show_error (toast w) te failureMessage Hte) as (e' & He' & Htxt & Hcl).
    split; [eauto|]. split; [|split].
    + rewrite Hf. exact Dv.
    + exists e'. rewrite Ht. auto.
    + intros (e2 & He2 & Htxt2 & _). rewrite Ht, He' in He2.
      injection He2 as <-. rewrite Htxt in Htxt2. discriminate.
Qed.

Lemma submit_outcomes_witness :
  (exists w', handleSubmit Resolved (Examples.form "Ann" "ann@example.com" "Hello") = (w', None) /\
     controlsIdle w') /\
  (exists w', handleSubmit (submitForm false) (Examples.form "Ann" "ann@example.com" "Hello")
                = (w', None) /\ controlsIdle w').
Proof.
  split.
  - destruct (submit_outcomes (Examples.form "Ann" "ann@example.com" "Hello") Resolved
                Examples.button Examples.button
                (mkElement ["toast"] [("id", "toast")] ""))
      as (w' & H & _ & Hidle & _); try reflexivity.
    + repeat constructor.
    + exists w'. auto.
  - destruct (submit_outcomes (Examples.form "Ann" "ann@example.com" "Hello") (submitForm false)
                Examples.button Examples.button
                (mkElement ["toast"] [("id", "toast")] ""))
      as (w' & H & _ & Hidle & _); try reflexivity.
    + repeat constructor.
    + exists w'. auto.
Defined.

(** C3 as stated fails on a page that lacks one of the three elements.
    Without the reset button, or without the submit button, [setFormState]
    throws: the call is never made, the failure notification is shown
    although the call would have resolved, the values are kept, and the
    [TypeError] escapes [handleSubmit].  Without the toast element the
    form is reset and no notification is shown. *)
Lemma submit_third_outcome :
  let fields3 := [ Examples.nameField "Ann"; Examples.emailField "ann@example.com";
                   Examples.messageField "Hello" ] in
  let page sb rb t := mkWorld fields3 [[]; []; []] sb rb t [] None in
  let noReset := page (Some Examples.button) None Examples.quietToast in
  let noSubmit := page None (Some Examples.button) Examples.quietToast in
  let noToast := page (Some Examples.button) (Some Examples.button)
                   (Toast.mkToast None None) in
  (exists w', handleSubmit Resolved noReset = (w', Some TypeError) /\
     List.map value (fields w') = List.map value fields3 /\
     toastShows failureMessage "error" w') /\
  (exists w', handleSubmit Resolved noSubmit = (w', Some TypeError) /\
     List.map value (fields w') = List.map value fields3 /\
     toastShows failureMessage "error" w') /\
  (exists w', handleSubmit Resolved noToast = (w', None) /\
     List.map value (fields w') = List.map defaultValue fields3 /\
     Toast.element (toast w') = None /\
     ~ toastShows successMessage "success" w').
Proof.
  cbv zeta. split; [|split].
  - eexists. split; [vm_compute; reflexivity|]. split; [reflexivity|].
    eexists. repeat split.
  - eexists. split; [vm_compute; reflexivity|]. split; [reflexivity|].
    eexists. repeat split.
  - eexists. split; [vm_compute; reflexivity|]. split; [reflexivity|].
    split; [reflexivity|]. intros (e & He & _). discriminate.
Qed.

End FormFacts.

(** ** Tabs *)
Section TabsFacts.
Import Dom Tabs.

Lemma existsb_eqb_In j ns : existsb (Nat.eqb j) ns = true <-> In j ns.
Proof.
  rewrite existsb_exists. split.
  - intros (x & Hx & E). apply Nat.eqb_eq in E. now subst.
  - intros H. exists j. split; [exact H | apply Nat.eqb_refl].
Qed.






(** *** Class changes leave the attributes alone *)

Lemma map_attrs_alter (f : Element -> Element) n : forall d,
  (forall e, attrs (f e) = attrs e) ->
  List.map attrs (alter f n d) = List.map attrs d.
Proof.
  intros d Hf. revert n. induction d as [|e d IH]; intros n; [reflexivity|].
  destruct n; simpl; [now rewrite Hf | f_equal; apply IH].
Qed.

Lemma map_attrs_forEach (f : Element -> Element) ns : forall d,
  (forall e, attrs (f e) = attrs e) ->
  List.map attrs (forEach (fun n => alter f n) ns d) = List.map attrs d.
Proof.
  unfold forEach. induction ns as [|n ns IH]; intros d Hf; simpl; [reflexivity|].
  rewrite IH by exact Hf. now apply map_attrs_alter.
Qed.

Lemma idAt_attrs d d' :
  List.map attrs d' = List.map attrs d -> forall n, idAt d' n = idAt d n.
Proof.
  intros H n. unfold idAt, elementId, getAttribute.
  pose proof (lookup_map_eq attrs _ _ n H) as Hn.
  destruct (d' !! n), (d !! n); simpl in Hn; try discriminate; auto.
  injection Hn as ->. reflexivity.
Qed.

Lemma find_pointwise {A} (p q : A -> bool) l :
  (forall x, p x = q x) -> List.find p l = List.find q l.
Proof. intros H. induction l as [|x l IH]; simpl; [reflexivity|]. now rewrite H, IH. Qed.

Lemma hasId_idAt t d n :
  (match d !! n with Some e => hasId t e | None => false end) = true <-> idAt d n = Some t.
Proof.
  unfold idAt, hasId. destruct (d !! n) as [e|]; [|split; discriminate].
  destruct (elementId e) as [s|]; [|split; discriminate].
  rewrite String.eqb_eq. split; congruence.
Qed.

Lemma getElementById_attrs t d d' :
  List.map attrs d' = List.map attrs d -> getElementById t d' = getElementById t d.
Proof.
  intros H. unfold getElementById.
  replace (length d') with (length d)
    by (rewrite <- (length_map attrs d), <- H; apply length_map).
  apply find_pointwise. intros n.
  pose proof (hasId_idAt t d n) as H1. pose proof (hasId_idAt t d' n) as H2.
  rewrite (idAt_attrs _ _ H) in H2.
  destruct (match d' !! n with Some e => hasId t e | None => false end),
           (match d !! n with Some e => hasId t e | None => false end); auto.
  - symmetry. apply H1, H2. reflexivity.
  - apply H2, H1. reflexivity.
Qed.

Lemma targetId_attrs a name d d' :
  List.map attrs d' = List.map attrs d -> targetId a name d' = targetId a name d.
Proof.
  intros H. unfold targetId, getAttribute.
  pose proof (lookup_map_eq attrs _ _ a H) as Hn.
  destruct (d' !! a), (d !! a); simpl in Hn; try discriminate; auto.
  injection Hn as ->. reflexivity.
Qed.

Lemma getElementById_Some t d r :
  getElementById t d = Some r -> idAt d r = Some t /\ r < length d.
Proof.
  unfold getElementById. intros H. apply find_some in H as [Hin Hr].
  apply in_seq in Hin. split; [now apply hasId_idAt | lia].
Qed.






Lemma not_In_existsb j ns : ~ In j ns -> existsb (Nat.eqb j) ns = false.
Proof.
  intros H. destruct (existsb (Nat.eqb j) ns) eqn:E; [|reflexivity].
  apply existsb_eqb_In in E. contradiction.
Qed.




End TabsFacts.

(** ** Attributes and class lists, continued *)
Section AttributeFacts.
Import Dom.

Lemma set_same n v a : get n a = Some v -> set n v a = a.
Proof.
  induction a as [|[m x] a IH]; simpl; [discriminate|].
  destruct (String.eqb_spec m n) as [->|Hne]; intros H.
  - now injection H as ->.
  - now rewrite IH.
Qed.

Lemma set_set_idem n v m u a :
  n <> m -> set m u (set n v (set m u (set n v a))) = set m u (set n v a).
Proof.
  intros Hne. set (b := set m u (set n v a)).
  assert (Hn : get n b = Some v).
  { unfold b. rewrite get_set_ne by congruence. apply get_set_eq. }
  assert (Hm : get m b = Some u) by apply get_set_eq.
  now rewrite (set_same n v b Hn), (set_same m u b Hm).
Qed.

Lemma del_absent n a : get n a = None -> del n a = a.
Proof.
  unfold del. induction a as [|[m x] a IH]; simpl; [reflexivity|].
  destruct (String.eqb_spec m n); simpl; [discriminate|].
  intros H. now rewrite IH.
Qed.

Lemma del_set_absent n v a : get n a = None -> del n (set n v a) = a.
Proof.
  unfold del. induction a as [|[m x] a IH]; simpl.
  - now rewrite String.eqb_refl.
  - destruct (String.eqb_spec m n) as [->|Hne]; simpl; [discriminate|].
    destruct (String.eqb_spec m n); [contradiction|]. simpl.
    intros H. now rewrite IH.
Qed.

Lemma remove_absent t cl : contains cl t = false -> remove t cl = cl.
Proof.
  unfold contains, remove. induction cl as [|x cl IH]; simpl; [reflexivity|].
  destruct (String.eqb_spec t x); simpl; [discriminate|].
  intros H. now rewrite IH.
Qed.

Lemma remove_add_absent t cl : contains cl t = false -> remove t (add t cl) = cl.
Proof.
  intros H. unfold add. rewrite H. unfold remove.
  rewrite List.filter_app. simpl. rewrite String.eqb_refl. simpl.
  rewrite app_nil_r. now apply remove_absent.
Qed.

End AttributeFacts.

(** ** Toast *)
Section ToastFacts.
Import Dom Toast.

Lemma show_some (m s : string) (t : Toast) (e : Element) :
  element t = Some e ->
  show m s t =
  mkToast
    (Some (mkElement (add (String.append "toast-" s) (add "show" ["toast"]))
             (set "role" "status" (set "aria-live" "polite" (attrs e))) m))
    (Some config.toastDuration).
Proof.
  intros H. unfold show, hide. rewrite H.
  cbv [element setAttribute classAdd classRemove setTextContent setClassName withClasses
       classList attrs textContent].
  reflexivity.
Qed.

(** X1: a toast shown over another replaces it entirely: the element, the
    text, the classes, the attributes and the timer are those of showing
    the second toast alone.  (The severities are class tokens, as
    [classList.add] requires.) *)
Theorem show_replaces (m1 s1 m2 s2 : string) (t : Toast)
  (H1 : ToastTokens.isToken s1 = true) (H2 : ToastTokens.isToken s2 = true) :
  show m2 s2 (show m1 s1 t) = show m2 s2 t.
Proof.
  destruct (element t) as [e|] eqn:E.
  - rewrite (show_some m1 s1 t e E).
    erewrite (show_some m2 s2 (mkToast _ _)) by reflexivity.
    rewrite (show_some m2 s2 t e E). cbn [attrs].
    rewrite set_set_idem by discriminate. reflexivity.
  - unfold show. rewrite E. cbn [element]. now rewrite E.
Qed.

Lemma show_replaces_witness :
  show "Sent" "success" (show "Failed" "error" Examples.quietToast) =
  show "Sent" "success" Examples.quietToast.
Proof.
  apply (show_replaces "Failed" "error" "Sent" "success" Examples.quietToast
           eq_refl eq_refl).
Defined.

(** X2: hiding a toast that was just shown takes the [show] class away and
    leaves the text and the pending timer; for the three severities the
    script knows, only the base class remains. *)
Theorem hide_after_show (m sev : string) (t : Toast) (e : Element)
  (He : element t = Some e) (Hsev : ToastTokens.isToken sev = true) :
  exists e', element (hide (show m sev t)) = Some e' /\
    hasClass "show" e' = false /\
    textContent e' = m /\
    timeout (hide (show m sev t)) = Some config.toastDuration /\
    (sev = "success" \/ sev = "error" \/ sev = "warning" -> classList e' = ["toast"]).
Proof.
  rewrite (show_some m sev t e He). unfold hide. cbn [element timeout].
  eexists. split; [reflexivity|].
  split; [|split; [reflexivity|split; [reflexivity|]]].
  - do 3 rewrite hasClass_classRemove. rewrite (hasClass_classRemove "show").
    cbn [String.eqb Ascii.eqb Bool.eqb negb andb]. now rewrite !andb_false_r.
  - intros [-> | [-> | ->]]; reflexivity.
Qed.

Lemma hide_after_show_witness :
  exists e', element (hide (show "Saved" "warning" Examples.quietToast)) = Some e' /\
    classList e' = ["toast"].
Proof.
  destruct (hide_after_show "Saved" "warning" Examples.quietToast
              (mkElement ["toast"] [("id", "toast")] "") eq_refl eq_refl)
    as (e' & He' & _ & _ & _ & Hcl).
  exists e'. split; [exact He' | apply Hcl; auto].
Defined.

End ToastFacts.

(** ** Sidebar: initial state and listeners *)
Section SidebarEventFacts.
Import Dom Sidebar SidebarEvents.

(** X3: the constructor leaves a sidebar collapsed exactly on the mobile
    viewport class, never adds the expanded class (it removes it on mobile),
    and starts closed, with the overlay and the scroll lock as the page has
    them. *)
Theorem initial_state (s : AppState) (sb : Element) (hb ov : option Element)
  (navLink : bool) (overflow : string) (focus : Focus) (hbFocus : bool) :
  let w := construct s (Some sb) hb ov navLink overflow focus hbFocus in
  collapsed w = isMobile s /\
  expanded w = negb (isMobile s) && hasClass "sidebar-expanded" sb /\
  isOpen w = false /\
  overlay w = ov /\
  bodyOverflow w = overflow.
Proof.
  unfold construct, setInitialState, closeSidebar, openSidebar, collapsed, expanded,
    withSidebar.
  simpl. destruct (isMobile s); simpl;
    repeat first [ rewrite hasClass_classAdd | rewrite hasClass_classRemove ];
    simpl; rewrite ?andb_true_r, ?andb_false_r, ?orb_true_r; auto.
Qed.

Lemma consistent_open w : consistent w -> consistent (open w).
Proof.
  destruct w as [s sb hb ov o nl bo ae hf]. unfold consistent, expanded, overlayActive, open.
  simpl. destruct sb as [sb|], ov as [ov|]; simpl; auto.
  intros _. rewrite !hasClass_classAdd. simpl. now rewrite !orb_true_r.
Qed.

Lemma consistent_close w : consistent w -> consistent (close w).
Proof.
  destruct w as [s sb hb ov o nl bo ae hf]. unfold consistent, expanded, overlayActive, close.
  simpl. destruct sb as [sb|], ov as [ov|]; simpl; auto.
  intros _. rewrite !hasClass_classRemove. simpl. now rewrite !andb_false_r.
Qed.

Lemma consistent_toggleDesktop w : consistent w -> consistent (toggleDesktop w).
Proof.
  destruct w as [s sb hb ov o nl bo ae hf].
  unfold consistent, expanded, overlayActive, toggleDesktop.
  simpl. destruct sb as [sb|]; simpl; auto.
  unfold hasClass, classToggle, withClasses. simpl. now rewrite contains_toggle.
Qed.

Lemma consistent_ext w w' :
  sidebar w' = sidebar w -> overlay w' = overlay w ->
  isOpen w' = isOpen w -> bodyOverflow w' = bodyOverflow w ->
  consistent w -> consistent w'.
Proof.
  unfold consistent, expanded, overlayActive. intros -> -> -> ->. auto.
Qed.

Lemma consistent_toggle w : consistent w -> consistent (toggle w).
Proof.
  intros H. unfold toggle. destruct (isMobile (st w)); [destruct (isOpen w)|].
  - now apply consistent_close.
  - now apply consistent_open.
  - now apply consistent_toggleDesktop.
Qed.

(** X4: the marks of the open state (the expanded class, the overlay, the
    scroll lock) stay in agreement with the open flag under every listener
    of the sidebar, a resize that settles on a mobile width included; only
    a resize that settles on a desktop width is left out. *)
Theorem listeners_keep_marks (e : Event) (w : World)
  (Hc : consistent w)
  (Hr : forall innerWidth, e = ResizeSettled innerWidth -> (innerWidth < 768)%Z) :
  consistent (handle e w).
Proof.
  destruct e as [|key| | |key|innerWidth]; simpl.
  - destruct (hamburger w); [now apply consistent_toggle | exact Hc].
  - destruct (hamburger w); [|exact Hc].
    destruct (_ || _); [now apply consistent_toggle | exact Hc].
  - destruct (overlay w); [now apply consistent_close | exact Hc].
  - destruct (isMobile (st w)); [now apply consistent_close | exact Hc].
  - destruct (_ && _); [now apply consistent_close | exact Hc].
  - specialize (Hr innerWidth eq_refl). unfold resizeSettled.
    destruct (Z.ltb_spec innerWidth 768) as [_|]; [|lia]. simpl.
    destruct (isOpen w) eqn:Ho.
    + apply consistent_close. apply (consistent_ext w); auto.
    + apply (consistent_ext w); auto.
Qed.

Lemma listeners_keep_marks_witness :
  consistent (handle (DocumentKey "Escape") Examples.openMobileSidebar) /\
  isOpen (handle (DocumentKey "Escape") Examples.openMobileSidebar) = false.
Proof.
  split; [|reflexivity].
  apply (listeners_keep_marks (DocumentKey "Escape") Examples.openMobileSidebar).
  - repeat split.
  - intros innerWidth H. discriminate H.
Defined.

(** X5: a resize that settles on a desktop width clears the open flag, the
    overlay and the scroll lock, and leaves the sidebar element as it was:
    a sidebar that was expanded on mobile keeps the expanded class. *)
Theorem resize_to_desktop (innerWidth : Z) (w : World)
  (Hw : (768 <= innerWidth)%Z) :
  let w' := resizeSettled innerWidth w in
  isMobile (st w') = false /\
  isOpen w' = false /\
  overlayActive w' = false /\
  bodyOverflow w' = "" /\
  sidebar w' = sidebar w /\
  expanded w' = expanded w.
Proof.
  unfold resizeSettled, overlayActive, expanded.
  destruct (Z.ltb_spec innerWidth 768) as [|_]; [lia|]. simpl.
  repeat split. destruct (overlay w) as [ov|]; simpl; [|reflexivity].
  rewrite hasClass_classRemove. simpl. apply andb_false_r.
Qed.

Lemma resize_to_desktop_witness :
  isOpen (resizeSettled 1024 Examples.openMobileSidebar) = false /\
  expanded (resizeSettled 1024 Examples.openMobileSidebar) = true.
Proof.
  destruct (resize_to_desktop 1024 Examples.openMobileSidebar ltac:(lia))
    as (_ & Ho & _ & _ & _ & He).
  split; [exact Ho|]. rewrite He. reflexivity.
Defined.

End SidebarEventFacts.

(** ** Carousel: rotation, assistive attributes, construction *)
Section CarouselTimerFacts.
Import Dom Carousel CarouselTimer.
Local Open Scope Z_scope.

Lemma forward_mod c n :
  1 <= n -> 0 <= c < n -> effectiveIndex (c + 1) n = (c + 1) mod n.
Proof.
  intros Hn Hc. destruct (effectiveIndex_cases (c + 1) n) as (_ & Hhi & Hmid); [lia|].
  destruct (Z.eq_dec (c + 1) n) as [E|E].
  - rewrite Hhi by lia. rewrite E, Z.mod_same by lia. reflexivity.
  - rewrite Hmid by lia. rewrite Z.mod_small by lia. reflexivity.
Qed.

Lemma forward_back c n :
  1 <= n -> 0 <= c < n -> effectiveIndex (effectiveIndex (c + 1) n - 1) n = c.
Proof.
  intros Hn Hc.
  destruct (effectiveIndex_cases (c + 1) n) as (_ & Hhi & Hmid); [lia|].
  destruct (Z.eq_dec (c + 1) n) as [E|E].
  - rewrite Hhi by lia.
    destruct (effectiveIndex_cases (0 - 1) n) as (Hneg & _ & _); [lia|].
    rewrite Hneg by lia. lia.
  - rewrite Hmid by lia.
    destruct (effectiveIndex_cases (c + 1 - 1) n) as (_ & _ & Hmid'); [lia|].
    rewrite Hmid' by lia. lia.
Qed.

Lemma back_forward c n :
  1 <= n -> 0 <= c < n -> effectiveIndex (effectiveIndex (c - 1) n + 1) n = c.
Proof.
  intros Hn Hc.
  destruct (effectiveIndex_cases (c - 1) n) as (Hneg & _ & Hmid); [lia|].
  destruct (Z.eq_dec c 0) as [E|E].
  - rewrite Hneg by lia.
    destruct (effectiveIndex_cases (n - 1 + 1) n) as (_ & Hhi & _); [lia|].
    rewrite Hhi by lia. lia.
  - rewrite Hmid by lia.
    destruct (effectiveIndex_cases (c - 1 + 1) n) as (_ & _ & Hmid'); [lia|].
    rewrite Hmid' by lia. lia.
Qed.

(** X6: with at least one slide and the index in range, [k] firings of the
    interval callback all return and land on index [(i + k) mod N]; after
    [N] firings the carousel is back on the slide it started from. *)
Theorem ticks_advance (w : World) (k : nat)
  (HN : (1 <= length (slides w))%nat) (Hr : inRange w) :
  exists w', ticks k w = Some w' /\
    slideCount w' = slideCount w /\
    current w' = (current w + Z.of_nat k) mod slideCount w /\
    (k = length (slides w) -> current w' = current w).
Proof.
  assert (Hmain : forall k w, 1 <= slideCount w -> inRange w ->
            exists w', ticks k w = Some w' /\ slideCount w' = slideCount w /\
              current w' = (current w + Z.of_nat k) mod slideCount w).
  { clear. induction k as [|k IH]; intros w Hn Hr.
    - exists w. simpl. rewrite Z.add_0_r, Z.mod_small by exact Hr. auto.
    - simpl. unfold tick, next. fold (current w).
      destruct (goToSlide_ok (current w + 1) w (slides_nonempty w Hn))
        as (w1 & -> & Hcur & Hlen & _).
      assert (Hn1 : slideCount w1 = slideCount w) by (unfold slideCount; now rewrite Hlen).
      destruct (IH w1) as (w' & Ht & Hc & Hi).
      + lia.
      + unfold inRange. rewrite Hn1, Hcur. now apply effectiveIndex_range.
      + exists w'. split; [exact Ht|]. split; [congruence|].
        rewrite Hi, Hn1, Hcur, forward_mod by (exact Hn || exact Hr).
        rewrite Zplus_mod_idemp_l. f_equal. lia. }
  assert (Hn : 1 <= slideCount w) by (unfold slideCount; lia).
  destruct (Hmain k w Hn Hr) as (w' & Ht & Hc & Hi).
  exists w'. repeat split; auto.
  intros ->. rewrite Hi. fold (slideCount w).
  rewrite <- (Z.mul_1_l (slideCount w)) at 1. rewrite Z.mod_add by lia.
  apply Z.mod_small. exact Hr.
Qed.

Lemma ticks_advance_witness :
  exists w', ticks 3 Examples.carousel3 = Some w' /\ current w' = 0.
Proof.
  destruct (ticks_advance Examples.carousel3 3) as (w' & Ht & _ & _ & Hfull).
  - simpl. lia.
  - unfold inRange. vm_compute. split; [discriminate|reflexivity].
  - exists w'. split; [exact Ht|]. rewrite Hfull; reflexivity.
Defined.

(** X7: with at least one slide and the index in range, [prev] after
    [next], and [next] after [prev], return to the index they started from,
    also across the ends. *)
Theorem next_prev_round_trip (w : World)
  (HN : (1 <= length (slides w))%nat) (Hr : inRange w) :
  (exists w1 w2, next w = Some w1 /\ prev w1 = Some w2 /\ current w2 = current w) /\
  (exists w1 w2, prev w = Some w1 /\ next w1 = Some w2 /\ current w2 = current w).
Proof.
  assert (Hn : 1 <= slideCount w) by (unfold slideCount; lia).
  split.
  - unfold next; fold (current w).
    destruct (goToSlide_ok (current w + 1) w (slides_nonempty w Hn))
      as (w1 & Hgo1 & Hcur1 & Hlen1 & _).
    assert (Hn1 : slideCount w1 = slideCount w) by (unfold slideCount; now rewrite Hlen1).
    unfold prev.
    destruct (goToSlide_ok (current w1 - 1) w1) as (w2 & Hgo2 & Hcur2 & _);
      [apply slides_nonempty; lia|].
    exists w1, w2. split; [exact Hgo1|]. split; [exact Hgo2|].
    rewrite Hcur2, Hn1, Hcur1. now apply forward_back.
  - unfold prev; fold (current w).
    destruct (goToSlide_ok (current w - 1) w (slides_nonempty w Hn))
      as (w1 & Hgo1 & Hcur1 & Hlen1 & _).
    assert (Hn1 : slideCount w1 = slideCount w) by (unfold slideCount; now rewrite Hlen1).
    unfold next.
    destruct (goToSlide_ok (current w1 + 1) w1) as (w2 & Hgo2 & Hcur2 & _);
      [apply slides_nonempty; lia|].
    exists w1, w2. split; [exact Hgo1|]. split; [exact Hgo2|].
    rewrite Hcur2, Hn1, Hcur1. now apply back_forward.
Qed.

Lemma next_prev_round_trip_witness :
  exists w1 w2, prev Examples.carousel3 = Some w1 /\ next w1 = Some w2 /\ current w2 = 0.
Proof.
  destruct (next_prev_round_trip Examples.carousel3) as [_ (w1 & w2 & H1 & H2 & H3)].
  - simpl. lia.
  - unfold inRange. vm_compute. split; [discriminate|reflexivity].
  - exists w1, w2. split; [exact H1|]. split; [exact H2|]. rewrite H3. reflexivity.
Defined.

Lemma goToSlide_slides k w w' :
  goToSlide k w = Some w' ->
  slides w' =
  imap (fun i slide =>
          mkSlide (offsetWidth slide)
            (setAttribute "aria-hidden"
               (Js.string_of_bool (negb (Z.of_nat i =? current w'))) (slideEl slide))
            (option_map
               (setAttribute "tabindex" (if Z.of_nat i =? current w' then "0" else "-1"))
               (content slide)))
       (slides w).
Proof.
  intros H. destruct (slides w) as [|first rest] eqn:E.
  - rewrite (goToSlide_none k w E) in H. discriminate.
  - unfold goToSlide in H. rewrite E in H. injection H as <-. reflexivity.
Qed.

(** X8: after [goToSlide] the slide at the current index, and no other, is
    exposed to assistive technology: its [aria-hidden] is [false] and the
    [tabindex] of its content is [0]; every other slide has [true] and
    [-1].  The widths of the slides are untouched. *)
Theorem goToSlide_exposes_current (k : Z) (w w' : World) (i : nat) (s : Slide)
  (Hgo : goToSlide k w = Some w')
  (Hs : slides w' !! i = Some s) :
  getAttribute "aria-hidden" (slideEl s) =
    Some (if Z.of_nat i =? current w' then "false" else "true") /\
  (forall c, content s = Some c ->
     getAttribute "tabindex" c = Some (if Z.of_nat i =? current w' then "0" else "-1")) /\
  (exists s0, slides w !! i = Some s0 /\ offsetWidth s = offsetWidth s0).
Proof.
  rewrite (goToSlide_slides k w w' Hgo), list_lookup_imap in Hs.
  destruct (slides w !! i) as [s0|] eqn:Ei; [|discriminate].
  cbn [fmap option_fmap option_map] in Hs. injection Hs as <-.
  cbn [slideEl content offsetWidth].
  split; [|split].
  - unfold getAttribute, setAttribute. cbn [attrs]. rewrite get_set_eq.
    destruct (Z.of_nat i =? current w'); reflexivity.
  - intros c Hc. destruct (content s0) as [c0|]; [|discriminate].
    cbn [option_map] in Hc. injection Hc as <-.
    unfold getAttribute, setAttribute. cbn [attrs]. now rewrite get_set_eq.
  - eauto.
Qed.

Lemma goToSlide_exposes_current_witness :
  exists w' s, goToSlide 1 Examples.carousel3 = Some w' /\ slides w' !! 2%nat = Some s /\
    getAttribute "aria-hidden" (slideEl s) = Some "true".
Proof.
  eexists. eexists. split; [reflexivity|]. split; [reflexivity|].
  apply (proj1 (goToSlide_exposes_current 1 Examples.carousel3 _ 2 _ eq_refl eq_refl)).
Defined.

(** X9: what the constructor builds.  With fewer than two slides nothing is
    initialised: no dots, no timer.  With two or more the timer runs with
    the configured period, and there is one dot per slide when the page has
    a dots container and none otherwise.  The index and the slides are
    those given, and no gesture is in progress. *)
Theorem construct_outcome (s : AppState) (tr : option Transform) (sl : list Slide)
  (container : bool) :
  let w := construct s tr sl container in
  slides w = sl /\
  current w = currentTestimonial s /\
  atRest w /\
  carouselInterval (st w) =
    (if (1 <? length sl)%nat then Some config.carouselInterval else carouselInterval s) /\
  length (dots w) = (if (1 <? length sl)%nat && container then length sl else 0%nat).
Proof.
  unfold construct. destruct (1 <? length sl)%nat; [|repeat split].
  unfold init. set (w0 := mkWorld s tr sl container [] 0 0).
  destruct (startAutoAdvance_frame (createDots w0)) as (F1 & F2 & F3 & F4 & F5).
  cbv zeta. unfold atRest. rewrite F1, F2, F3, F4, F5.
  unfold createDots. simpl. destruct container; simpl; repeat split.
  now rewrite !length_imap.
Qed.

End CarouselTimerFacts.

(** ** Image modal: listeners, focus, late loads *)
Section ImageModalEventFacts.
Import Dom ImageModal ImageModalEvents.

Lemma lockAgrees_close w : lockAgrees (close w).
Proof.
  unfold lockAgrees, modalOpen, close. simpl. destruct (modal w) as [m|]; simpl; [|reflexivity].
  rewrite hasClass_classRemove. simpl. apply andb_false_r.
Qed.

Lemma lockAgrees_open button w m :
  modal w = Some m -> lockAgrees w -> lockAgrees (open button w).
Proof.
  intros Hm H. unfold open.
  destruct (getAttribute "data-image" button) as [s|]; [|exact H].
  destruct (modalContent w); [|exact H].
  destruct (String.eqb s ""); [exact H|].
  unfold lockAgrees, modalOpen. simpl. rewrite Hm. simpl.
  rewrite hasClass_classAdd. simpl. apply orb_true_r.
Qed.

(** X10: under every listener of the modal and every load or error event of
    an awaited image, the modal carries the [open] class exactly when the
    page scroll is locked, if that was so before. *)
Theorem modal_lock_invariant (e : Event) (w : World) (H : lockAgrees w) :
  lockAgrees (handle e w).
Proof.
  unfold handle. destruct (modal w) as [m|] eqn:Hm; [|exact H].
  destruct e as [button| |b|key|i|i].
  - now apply lockAgrees_open with (m := m).
  - destruct (modalClose w); [apply lockAgrees_close | exact H].
  - destruct b; [apply lockAgrees_close | exact H].
  - destruct (_ && _); [apply lockAgrees_close | exact H].
  - unfold onload. destruct (pending w !! i); [|exact H].
    destruct (modalContent w); exact H.
  - unfold onerror. destruct (pending w !! i); [|exact H].
    destruct (modalContent w); exact H.
Qed.

Lemma modal_lock_invariant_witness :
  lockAgrees (handle (ViewClick (Examples.viewButton "a.jpg")) Examples.closedModal) /\
  modalOpen (handle (ViewClick (Examples.viewButton "a.jpg")) Examples.closedModal) = true.
Proof.
  split; [|reflexivity].
  apply (modal_lock_invariant (ViewClick (Examples.viewButton "a.jpg")) Examples.closedModal).
  reflexivity.
Defined.

Lemma open_some (button : Element) (w : World) (s : string) (c : Content) :
  getAttribute "data-image" button = Some s -> s <> "" -> modalContent w = Some c ->
  open button w =
  mkWorld (option_map (classAdd "open") (modal w)) (Some Loading) (modalClose w) "hidden"
    (if modalClose w && closeTakesFocus w then FocusModalClose else activeElement w)
    (pending w ++
     [mkImage s
        match getAttribute "data-alt" button with
        | Some a => if String.eqb a "" then "Portfolio Image" else a
        | None => "Portfolio Image"
        end "eager"])
    (closeTakesFocus w).
Proof.
  intros Hs Hne Hc. unfold open. rewrite Hs, Hc.
  destruct (String.eqb_spec s ""); [contradiction|reflexivity].
Qed.

(** X11: closing a modal that was just opened unlocks the scroll and takes
    the [open] class away, and nothing more: the focus is where [open] left
    it, on the close control of the modal when there is one that takes the
    focus (it is not given back to the button) and where it was before
    otherwise; the content region still holds the placeholder, and the
    image is still awaited, with the source of the button and its
    alternative text, or [Portfolio Image] when the button has none. *)
Theorem close_after_open (button : Element) (w : World) (s : string) (c : Content)
  (Hs : getAttribute "data-image" button = Some s)
  (Hne : s <> "")
  (Hc : modalContent w = Some c) :
  let w2 := close (open button w) in
  modalOpen w2 = false /\
  bodyOverflow w2 = "" /\
  activeElement w2 =
    (if modalClose w && closeTakesFocus w then FocusModalClose else activeElement w) /\
  modalContent w2 = Some Loading /\
  exists img, pending w2 = pending w ++ [img] /\
    src img = s /\
    alt img = match getAttribute "data-alt" button with
              | Some a => if String.eqb a "" then "Portfolio Image" else a
              | None => "Portfolio Image"
              end.
Proof.
  cbv zeta. split; [|unfold open; rewrite Hs, Hc;
                      destruct (String.eqb_spec s ""); [contradiction|]; simpl; eauto 10].
  pose proof (lockAgrees_close (open button w)) as H. unfold lockAgrees in H.
  rewrite H. reflexivity.
Qed.

Lemma close_after_open_witness :
  activeElement (close (open (Examples.viewButton "a.jpg") Examples.closedModal))
    = FocusModalClose /\
  activeElement (close (open (Examples.viewButton "a.jpg") Examples.spanCloseModal))
    = FocusViewBtn /\
  exists img, pending (close (open (Examples.viewButton "a.jpg") Examples.closedModal)) = [img] /\
    alt img = "Portfolio Image".
Proof.
  destruct (close_after_open (Examples.viewButton "a.jpg") Examples.closedModal "a.jpg"
              (Initial "") eq_refl ltac:(discriminate) eq_refl)
    as (_ & _ & Hf & _ & img & Hp & _ & Ha).
  destruct (close_after_open (Examples.viewButton "a.jpg") Examples.spanCloseModal "a.jpg"
              (Initial "") eq_refl ltac:(discriminate) eq_refl)
    as (_ & _ & Hf' & _).
  split; [exact Hf|]. split; [exact Hf'|]. exists img. split; [exact Hp | exact Ha].
Defined.

(** X12: loads are not tied to the button opened last.  When two buttons
    are opened one after the other and the image of the second loads before
    the image of the first, the modal ends up showing the first image. *)
Theorem late_load_wins (b1 b2 : Element) (w : World) (s1 s2 : string) (c : Content)
  (H1 : getAttribute "data-image" b1 = Some s1) (Hne1 : s1 <> "")
  (H2 : getAttribute "data-image" b2 = Some s2) (Hne2 : s2 <> "")
  (Hc : modalContent w = Some c)
  (Hp : pending w = []) :
  let w' := onload 0 (onload 1 (open b2 (open b1 w))) in
  exists img, modalContent w' = Some (Loaded img) /\ src img = s1 /\ pending w' = [].
Proof.
  cbv zeta. rewrite (open_some b1 w s1 c H1 Hne1 Hc).
  erewrite (open_some b2 _ s2 Loading H2 Hne2) by reflexivity.
  cbn [pending modal modalClose activeElement modalContent bodyOverflow closeTakesFocus].
  rewrite Hp.
  unfold onload. cbn. eauto.
Qed.

Lemma late_load_wins_witness :
  exists img,
    modalContent (onload 0 (onload 1 (open (Examples.viewButton "b.jpg")
                                         (open (Examples.viewButton "a.jpg")
                                            Examples.closedModal))))
      = Some (Loaded img) /\ src img = "a.jpg".
Proof.
  destruct (late_load_wins (Examples.viewButton "a.jpg") (Examples.viewButton "b.jpg")
              Examples.closedModal "a.jpg" "b.jpg" (Initial "")
              eq_refl ltac:(discriminate) eq_refl ltac:(discriminate) eq_refl eq_refl)
    as (img & Hm & Hsrc & _).
  exists img. split; [exact Hm | exact Hsrc].
Defined.

End ImageModalEventFacts.

(** ** The shared scroll lock *)
Section PageFacts.
Import Dom Page.

(** X13: the sidebar and the modal write the same scroll lock.  When the
    sidebar is opened, then the modal, closing the modal releases the lock
    although the sidebar is still open. *)
Theorem modal_close_releases_sidebar_lock (p : World) (button sb ov : Element)
  (s : string) (c : ImageModal.Content)
  (Hsb : Sidebar.sidebar (side p) = Some sb)
  (Hov : Sidebar.overlay (side p) = Some ov)
  (Hs : getAttribute "data-image" button = Some s)
  (Hne : s <> "")
  (Hc : ImageModal.modalContent (lightbox p) = Some c) :
  let p1 := sidebarDo Sidebar.open p in
  let p2 := modalDo (ImageModal.open button) p1 in
  let p3 := modalDo ImageModal.close p2 in
  overflow p1 = "hidden" /\
  overflow p2 = "hidden" /\
  Sidebar.isOpen (side p3) = true /\
  overflow p3 = "" /\
  coherent p3.
Proof.
  cbv zeta. unfold sidebarDo, modalDo, overflow, coherent, Sidebar.open, ImageModal.open.
  rewrite Hsb, Hov. simpl. rewrite Hs, Hc.
  destruct (String.eqb_spec s ""); [contradiction|]. simpl. auto.
Qed.

Lemma modal_close_releases_sidebar_lock_witness :
  let p := mkWorld Examples.openMobileSidebar Examples.closedModal in
  let p3 := modalDo ImageModal.close
              (modalDo (ImageModal.open (Examples.viewButton "a.jpg"))
                 (sidebarDo Sidebar.open p)) in
  Sidebar.isOpen (side p3) = true /\ overflow p3 = "".
Proof.
  cbv zeta.
  destruct (modal_close_releases_sidebar_lock
              (mkWorld Examples.openMobileSidebar Examples.closedModal)
              (Examples.viewButton "a.jpg") _ _ "a.jpg" (ImageModal.Initial "")
              eq_refl eq_refl eq_refl ltac:(discriminate) eq_refl)
    as (_ & _ & Ho & Hf & _).
  split; [exact Ho | exact Hf].
Defined.

End PageFacts.

(** ** Contact form: required fields, marks, messages, focus, missing
    buttons *)
Section FormEventFacts.
Import Dom ContactForm ContactFormEvents.

Lemma trimStart_nil s : Js.trimStart s = [] <-> forallb Js.isWhiteSpace s = true.
Proof.
  induction s as [|c s IH]; simpl; [tauto|].
  destruct (Js.isWhiteSpace c); simpl; [exact IH|]. split; discriminate.
Qed.

Lemma trimStart_head s c r : Js.trimStart s = c :: r -> Js.isWhiteSpace c = false.
Proof.
  induction s as [|a s IH]; simpl; [discriminate|].
  destruct (Js.isWhiteSpace a) eqn:E; [exact IH|]. intros H. injection H as <- _. exact E.
Qed.

Lemma trim_nil s : Js.trim s = [] <-> forallb Js.isWhiteSpace s = true.
Proof.
  unfold Js.trim, Js.trimEnd. split.
  - intros H. apply (f_equal (@rev N)) in H. rewrite rev_involutive in H. simpl in H.
    apply trimStart_nil in H. apply forallb_rev in H. rewrite rev_involutive in H.
    destruct (Js.trimStart s) as [|c r] eqn:E; [now apply trimStart_nil|].
    apply trimStart_head in E. simpl in H. rewrite E in H. discriminate.
  - intros H. apply trimStart_nil in H. now rewrite H.
Qed.

(** X14: a field that is not of type email is invalid exactly when it is
    required and its value holds nothing but white space; the message is
    then the one for required fields.  A field that is not required always
    validates. *)
Theorem required_field_verdict (fd : Field) (Hty : type fd <> "email") :
  verdict fd =
    if required fd && forallb Js.isWhiteSpace (value fd)
    then (false, "This field is required")
    else (true, "").
Proof.
  unfold verdict. destruct (String.eqb_spec (type fd) "email"); [contradiction|].
  destruct (required fd); simpl; [|reflexivity].
  destruct (Js.trim (value fd)) as [|c r] eqn:E.
  - apply trim_nil in E. now rewrite E.
  - destruct (forallb Js.isWhiteSpace (value fd)) eqn:F; [|reflexivity].
    apply trim_nil in F. congruence.
Qed.

Lemma required_field_verdict_witness :
  verdict (Examples.nameField "   ") = (false, "This field is required") /\
  verdict (Examples.messageField " hi ") = (true, "").
Proof.
  split.
  - rewrite (required_field_verdict (Examples.nameField "   ")); [reflexivity|discriminate].
  - rewrite (required_field_verdict (Examples.messageField " hi ")); [reflexivity|discriminate].
Defined.

Lemma alter_fix {A} (f : A -> A) : forall (l : list A) i x,
  l !! i = Some x -> f x = x -> alter f i l = l.
Proof.
  induction l as [|a l IH]; intros i x Hi Hf; [reflexivity|].
  destruct i; simpl in *.
  - injection Hi as ->. now rewrite Hf.
  - f_equal. eapply IH; eauto.
Qed.

Lemma insert_alter_same {A} (f : A -> A) : forall (l : list A) i x,
  <[i:=x]> (alter f i l) = <[i:=x]> l.
Proof.
  induction l as [|a l IH]; intros i x; [reflexivity|].
  destruct i; simpl; [reflexivity|]. f_equal. apply IH.
Qed.

Lemma element_eta (e : Element) : mkElement (classList e) (attrs e) (textContent e) = e.
Proof. now destruct e. Qed.

Lemma verdict_message fd :
  fst (verdict fd) = false -> String.eqb (snd (verdict fd)) "" = false.
Proof.
  unfold verdict. destruct (String.eqb (type fd) "email").
  - destruct (isValidEmail _); [discriminate|reflexivity].
  - destruct (required fd), (Js.trim (value fd)); simpl; try discriminate; reflexivity.
Qed.

Lemma unmark (b : bool) (s : string) (e : Element) :
  getAttribute "aria-invalid" e = None -> hasClass "error" e = false ->
  removeAttribute "aria-invalid"
    (classRemove "error" (classToggleForce "error" b (setAttribute "aria-invalid" s e))) = e.
Proof.
  unfold getAttribute, hasClass. intros Ha Hc.
  unfold removeAttribute, classRemove, classToggleForce, setAttribute, withClasses,
    toggle_force. simpl.
  rewrite del_set_absent by exact Ha.
  destruct b.
  - rewrite remove_add_absent by exact Hc. apply element_eta.
  - rewrite !remove_absent by (rewrite ?remove_absent; exact Hc). apply element_eta.
Qed.

(** X15: on a field that carried no validation mark, in a parent that held
    no error message, an edit after a blur leaves no trace of the
    validation, whatever its verdict was: no [aria-invalid], no error
    class, no message; the form is as it was, with the new value in the
    field. *)
Theorem edit_wipes_marks (w : World) (i : nat) (fd : Field) (v : Js.jsstring)
  (Hi : fields w !! i = Some fd)
  (Ha : getAttribute "aria-invalid" (el fd) = None)
  (Hc : hasClass "error" (el fd) = false)
  (Hp : parents w !! parentNode fd = Some []) :
  input i v (blur i w) =
  withFields
    (<[i := mkField (type fd) (required fd) v (defaultValue fd) (el fd) (parentNode fd)]>
       (fields w))
    w.
Proof.
  assert (Hlt : i < length (fields w)) by (eapply lookup_lt_Some; eauto).
  unfold blur, validateField. rewrite Hi. destruct (verdict fd) as [ok msg]. simpl.
  unfold setFieldValidity. rewrite Hi. unfold input, clearFieldError. simpl.
  rewrite list_lookup_alter_eq, list_lookup_insert_eq by exact Hlt. simpl.
  rewrite insert_alter_same, list_insert_insert_eq.
  unfold withParents, withFields, withEl. simpl.
  rewrite unmark by assumption.
  assert (Hps : alter (fun errs : list string => List.tl errs) (parentNode fd)
                  (if negb ok && negb (String.eqb msg "")
                   then alter (fun errs => errs ++ [msg]) (parentNode fd)
                          (alter (fun errs : list string => List.tl errs) (parentNode fd)
                             (parents w))
                   else alter (fun errs : list string => List.tl errs) (parentNode fd)
                          (parents w)) = parents w).
  { rewrite (alter_fix _ (parents w) _ [] Hp eq_refl).
    destruct (negb ok && negb (String.eqb msg "")).
    - rewrite list_alter_alter_eq. now apply alter_fix with (x := []).
    - now apply alter_fix with (x := []). }
  rewrite Hps. destruct w; reflexivity.
Qed.

Lemma edit_wipes_marks_witness :
  fields (input 1 (Js.of_ascii "a") (blur 1 (Examples.form "Ann" "" "Hello")))
    = [Examples.nameField "Ann"; Examples.emailField "a"; Examples.messageField "Hello"] /\
  parents (input 1 (Js.of_ascii "a") (blur 1 (Examples.form "Ann" "" "Hello"))) = [[]; []; []].
Proof.
  rewrite (edit_wipes_marks (Examples.form "Ann" "" "Hello") 1 (Examples.emailField "")
             (Js.of_ascii "a") eq_refl eq_refl eq_refl eq_refl).
  split; reflexivity.
Defined.

(** X16: validation never piles messages up.  When the parent of a field
    holds at most one error message (its own, or that of another field in
    the same parent), then after a blur it holds exactly the message of
    this field when the field is invalid, and none when it is valid; the
    messages in other parents are untouched. *)
Theorem blur_replaces_message (w : World) (i : nat) (fd : Field) (errs : list string)
  (Hi : fields w !! i = Some fd)
  (Hp : parents w !! parentNode fd = Some errs)
  (Hone : length errs <= 1) :
  errorsOf (blur i w) i = (if fst (verdict fd) then [] else [snd (verdict fd)]) /\
  (forall p, p <> parentNode fd -> parents (blur i w) !! p = parents w !! p).
Proof.
  assert (Hlt : i < length (fields w)) by (eapply lookup_lt_Some; eauto).
  pose proof (verdict_message fd) as Hmsg.
  unfold blur, validateField, errorsOf. rewrite Hi.
  destruct (verdict fd) as [ok msg]. simpl in *.
  unfold setFieldValidity. rewrite Hi. simpl.
  rewrite list_lookup_insert_eq by exact Hlt. simpl.
  assert (Htl : List.tl errs = []) by (destruct errs as [|a [|b r]]; simpl in *; [auto|auto|lia]).
  split.
  - destruct ok; simpl.
    + rewrite list_lookup_alter_eq, Hp. simpl. now rewrite Htl.
    + rewrite Hmsg by reflexivity. simpl.
      rewrite !list_lookup_alter_eq, Hp. simpl. now rewrite Htl.
  - intros p Hne. destruct (negb ok && negb (String.eqb msg ""));
      rewrite !list_lookup_alter_ne by congruence; reflexivity.
Qed.

Lemma blur_replaces_message_witness :
  errorsOf (blur 0 (blur 0 (Examples.form "" "a@b.c" "Hello"))) 0 = ["This field is required"].
Proof.
  apply (proj1 (blur_replaces_message (blur 0 (Examples.form "" "a@b.c" "Hello")) 0 _
                  ["This field is required"] eq_refl eq_refl ltac:(simpl; lia))).
Defined.

(** *** The validation pass and the focus *)

Lemma fields_length_sameForm w w' : sameForm w w' -> length (fields w') = length (fields w).
Proof.
  intros [H _]. rewrite <- (length_map data (fields w')), H. apply length_map.
Qed.

Lemma validateField_aria_eq i w fd :
  fields w !! i = Some fd ->
  ariaInvalidAt (fst (validateField i w)) i =
    Some (Js.string_of_bool (negb (fst (verdict fd)))).
Proof.
  intros Hi. assert (Hlt : i < length (fields w)) by (eapply lookup_lt_Some; eauto).
  unfold ariaInvalidAt, validateField. rewrite Hi. destruct (verdict fd) as [ok msg].
  cbn [fst snd]. unfold setFieldValidity. rewrite Hi.
  cbn [fields withParents withFields]. rewrite list_lookup_insert_eq by exact Hlt.
  unfold getAttribute, withEl, classToggleForce, withClasses, setAttribute.
  cbn [el attrs]. apply get_set_eq.
Qed.

Lemma validateField_aria_ne i w j :
  j <> i -> ariaInvalidAt (fst (validateField i w)) j = ariaInvalidAt w j.
Proof.
  intros Hne. unfold ariaInvalidAt, validateField.
  destruct (fields w !! i) as [fd|] eqn:Hi; [|reflexivity].
  destruct (verdict fd) as [ok msg]. cbn [fst]. unfold setFieldValidity. rewrite Hi.
  cbn [fields withParents withFields]. now rewrite list_lookup_insert_ne by congruence.
Qed.

Lemma validate_fold_aria (l : list nat) : forall w ok j,
  (In j l -> j < length (fields w) ->
   ariaInvalidAt (fst (fold_left validateStep l (w, ok))) j =
     Some (Js.string_of_bool (negb (validAt w j)))) /\
  (~ In j l ->
   ariaInvalidAt (fst (fold_left validateStep l (w, ok))) j = ariaInvalidAt w j).
Proof.
  induction l as [|i l IH]; intros w ok j.
  - split; [intros []|reflexivity].
  - cbn [fold_left]. unfold validateStep at 2 4. cbn [fst snd].
    destruct (validateField_spec i w) as [Hs Hv].
    pose proof (validateField_aria_ne i w j) as Hne.
    pose proof (validateField_aria_eq i w) as Heq.
    destruct (validateField i w) as [w1 ok1]. cbn [fst snd] in *.
    destruct (IH w1 (if ok1 then ok else false) j) as [I1 I2].
    split.
    + intros Hin Hlt. destruct (in_dec Nat.eq_dec j l) as [Hl|Hl].
      * rewrite I1; [| exact Hl | now rewrite (fields_length_sameForm _ _ Hs)].
        now rewrite (validAt_sameForm _ _ Hs).
      * destruct Hin as [->|Hin]; [|contradiction].
        rewrite I2 by exact Hl.
        destruct (lookup_lt_is_Some_2 _ _ Hlt) as [fd Hfd].
        unfold validAt. rewrite Hfd. exact (Heq fd Hfd).
    + intros Hnin. rewrite I2 by (intros Hl; apply Hnin; now right).
      apply Hne. intros ->. apply Hnin. now left.
Qed.



(** *** The marks of the validation pass *)

Lemma validateField_error_eq i w fd :
  fields w !! i = Some fd ->
  errorClassAt (fst (validateField i w)) i = Some (negb (fst (verdict fd))).
Proof.
  intros Hi. assert (Hlt : i < length (fields w)) by (eapply lookup_lt_Some; eauto).
  unfold errorClassAt, validateField. rewrite Hi. destruct (verdict fd) as [ok msg].
  cbn [fst snd]. unfold setFieldValidity. rewrite Hi.
  cbn [fields withParents withFields]. rewrite list_lookup_insert_eq by exact Hlt.
  unfold hasClass, withEl, classToggleForce, withClasses, setAttribute.
  cbn [el classList]. now rewrite contains_toggle_force.
Qed.

Lemma validateField_error_ne i w j :
  j <> i -> errorClassAt (fst (validateField i w)) j = errorClassAt w j.
Proof.
  intros Hne. unfold errorClassAt, validateField.
  destruct (fields w !! i) as [fd|] eqn:Hi; [|reflexivity].
  destruct (verdict fd) as [ok msg]. cbn [fst]. unfold setFieldValidity. rewrite Hi.
  cbn [fields withParents withFields]. now rewrite list_lookup_insert_ne by congruence.
Qed.

Lemma validate_fold_error (l : list nat) : forall w ok j,
  (In j l -> j < length (fields w) ->
   errorClassAt (fst (fold_left validateStep l (w, ok))) j =
     Some (negb (validAt w j))) /\
  (~ In j l ->
   errorClassAt (fst (fold_left validateStep l (w, ok))) j = errorClassAt w j).
Proof.
  induction l as [|i l IH]; intros w ok j.
  - split; [intros []|reflexivity].
  - cbn [fold_left]. unfold validateStep at 2 4. cbn [fst snd].
    destruct (validateField_spec i w) as [Hs Hv].
    pose proof (validateField_error_ne i w j) as Hne.
    pose proof (validateField_error_eq i w) as Heq.
    destruct (validateField i w) as [w1 ok1]. cbn [fst snd] in *.
    destruct (IH w1 (if ok1 then ok else false) j) as [I1 I2].
    split.
    + intros Hin Hlt. destruct (in_dec Nat.eq_dec j l) as [Hl|Hl].
      * rewrite I1; [| exact Hl | now rewrite (fields_length_sameForm _ _ Hs)].
        now rewrite (validAt_sameForm _ _ Hs).
      * destruct Hin as [->|Hin]; [|contradiction].
        rewrite I2 by exact Hl.
        destruct (lookup_lt_is_Some_2 _ _ Hlt) as [fd Hfd].
        unfold validAt. rewrite Hfd. exact (Heq fd Hfd).
    + intros Hnin. rewrite I2 by (intros Hl; apply Hnin; now right).
      apply Hne. intros ->. apply Hnin. now left.
Qed.

(** After the validation pass every field carries the marks of its verdict. *)
Lemma validateAll_marks w j :
  j < length (fields w) ->
  exists fd', fields (fst (validateAll w)) !! j = Some fd' /\
    getAttribute "aria-invalid" (el fd') = Some (Js.string_of_bool (negb (validAt w j))) /\
    hasClass "error" (el fd') = negb (validAt w j).
Proof.
  intros Hj. unfold validateAll.
  pose proof (proj1 (validate_fold_aria (seq 0 (length (fields w))) w true j)
                ltac:(apply in_seq; lia) Hj) as Ha.
  pose proof (proj1 (validate_fold_error (seq 0 (length (fields w))) w true j)
                ltac:(apply in_seq; lia) Hj) as He.
  unfold ariaInvalidAt in Ha. unfold errorClassAt in He.
  destruct (fields (fst (fold_left validateStep (seq 0 (length (fields w))) (w, true))) !! j)
    as [fd'|]; [|discriminate].
  exists fd'. split; [reflexivity|]. split; [exact Ha|]. now injection He.
Qed.

(** C10: the verdict on a field of type email is the test of its trimmed
    value against the email pattern, whether or not the field is required
    and whatever it holds; when the trimmed value is empty the verdict is
    invalid, [validateField] marks the field invalid, and [handleSubmit]
    stops after the validation pass: in the state it returns the field
    carries [aria-invalid] [true] and the error class, the error
    notification is shown, and the buttons, the values and the console are
    untouched, however the remote call would have settled. *)
Theorem empty_email_blocks (w : World) (i : nat) (fd : Field) (outcome : Settled)
  (Hi : fields w !! i = Some fd)
  (Hty : type fd = "email") :
  fst (verdict fd) = isValidEmail (Js.trim (value fd)) /\
  (Js.trim (value fd) = [] ->
   verdict fd = (false, "Please enter a valid email address") /\
   (exists fd1, fields (fst (validateField i w)) !! i = Some fd1 /\
      snd (validateField i w) = false /\
      getAttribute "aria-invalid" (el fd1) = Some "true" /\
      hasClass "error" (el fd1) = true) /\
   (exists w', handleSubmit outcome w = (w', None) /\
      (exists fd', fields w' !! i = Some fd' /\
         getAttribute "aria-invalid" (el fd') = Some "true" /\
         hasClass "error" (el fd') = true) /\
      toast w' = Toast.show invalidMessage "error" (toast w) /\
      submitButton w' = submitButton w /\
      resetButton w' = resetButton w /\
      List.map value (fields w') = List.map value (fields w) /\
      console w' = console w)).
Proof.
  split; [now apply verdict_email|]. intros Hempty.
  assert (Hv : verdict fd = (false, "Please enter a valid email address")).
  { unfold verdict. rewrite Hty, Hempty. reflexivity. }
  assert (Hlt : i < length (fields w)) by (eapply lookup_lt_Some; eauto).
  assert (Hbad : validAt w i = false) by (unfold validAt; now rewrite Hi, Hv).
  split; [exact Hv|]. split.
  - unfold validateField. rewrite Hi, Hv. simpl.
    unfold setFieldValidity. rewrite Hi. simpl.
    rewrite list_lookup_insert_eq by exact Hlt.
    eexists. split; [reflexivity|]. split; [reflexivity|]. split.
    + unfold getAttribute. simpl. apply get_set_eq.
    + unfold hasClass. simpl. apply (contains_toggle_force "error" true).
  - pose proof (validateAll_false w i Hlt Hbad) as Hf.
    destruct (validateAll_spec w) as [Hs _].
    destruct (validateAll_marks w i Hlt) as (fd' & Hfd' & Haria & Herr).
    rewrite Hbad in Haria, Herr.
    unfold handleSubmit. destruct (validateAll w) as [w1 ok]. cbn [fst snd] in *.
    subst ok. cbn [negb].
    destruct Hs as (D & S1 & S2 & S3 & S4 & S5).
    destruct (map_value_data _ _ D) as [Dv _].
    eexists. split; [reflexivity|].
    destruct (firstInvalid _); cbn [fields toast submitButton resetButton console withToast];
      rewrite S3; (split; [exists fd'; auto|]); auto 10.
Qed.

Lemma empty_email_blocks_witness :
  exists w', handleSubmit Resolved (Examples.form "Ann" "   " "Hello") = (w', None) /\
    ariaInvalidAt w' 1 = Some "true" /\
    submitButton w' = Some Examples.button.
Proof.
  destruct (proj2 (empty_email_blocks (Examples.form "Ann" "   " "Hello") 1
                     (Examples.emailField "   ") Resolved eq_refl eq_refl) eq_refl)
    as (_ & _ & w' & H & (fd' & Hfd' & Ha & _) & _ & Hsb & _).
  exists w'. split; [exact H|]. split; [|exact Hsb].
  unfold ariaInvalidAt. now rewrite Hfd'.
Defined.



(** *** Missing buttons *)

(** X18: on a form that lacks its submit button or its reset button, a
    submission in which every field validates never gets to the remote
    call: however the call would settle, [handleSubmit] throws a
    [TypeError], the failure notification is shown, the error is logged,
    the fields keep their values, and a submit button that exists ends up
    enabled with the label and classes it had. *)
Theorem submit_without_button (w : World)
  (Hvalid : Forall (fun fd => fst (verdict fd) = true) (fields w))
  (Hmiss : submitButton w = None \/ resetButton w = None) :
  exists w', (forall outcome, handleSubmit outcome w = (w', Some TypeError)) /\
    List.map value (fields w') = List.map value (fields w) /\
    toast w' = Toast.show failureMessage "error" (toast w) /\
    console w' = console w ++ [String.append "Form submission error: " TypeError] /\
    (forall sb, submitButton w = Some sb ->
       submitButton w' = Some (mkButton false (btn sb) (innerHTML sb))).
Proof.
  destruct (validateAll_spec w) as [Hs _]. pose proof (validateAll_true w Hvalid) as Hok.
  unfold handleSubmit. destruct (validateAll w) as [w1 ok]. cbn [fst snd] in *. subst ok.
  cbn [negb]. destruct Hs as (D & S1 & S2 & S3 & S4 & S5).
  destruct (map_value_data _ _ D) as [Dv _].
  unfold submitValid, setFormState.
  destruct (submitButton w) as [sb|] eqn:Hsb.
  - destruct Hmiss as [Hm|Hm]; [discriminate|]. rewrite S1, S2, Hm.
    eexists. split; [intros outcome; unfold settle, setFormState; cbn; reflexivity|].
    cbn. rewrite S3, S4. repeat split; auto.
    intros sb0 H0. injection H0 as <-. reflexivity.
  - rewrite S1.
    eexists. split; [intros outcome; unfold settle, setFormState; cbn; rewrite S1; reflexivity|].
    cbn. rewrite S3, S4. repeat split; auto. intros sb0 H0. discriminate.
Qed.

Lemma submit_without_button_witness :
  let w := ContactForm.mkWorld
             [Examples.nameField "Ann"] [[]] (Some Examples.button) None
             Examples.quietToast [] None in
  exists w', handleSubmit Resolved w = (w', Some TypeError) /\
    List.map value (fields w') = [Js.of_ascii "Ann"].
Proof.
  cbv zeta.
  destruct (submit_without_button
              (ContactForm.mkWorld [Examples.nameField "Ann"] [[]] (Some Examples.button)
                 None Examples.quietToast [] None))
    as (w' & H & Hv & _).
  - repeat constructor.
  - right. reflexivity.
  - exists w'. split; [apply H | exact Hv].
Defined.

End FormEventFacts.

(** ** Tabs: the click listeners *)
Section TabsEventFacts.
Import Dom Tabs TabsEvents.

Lemma lookup_alter_eqb {A} (f : A -> A) n (d : list A) j :
  alter f n d !! j = if Nat.eqb j n then f <$> d !! j else d !! j.
Proof.
  destruct (Nat.eqb_spec j n) as [->|Hne].
  - apply list_lookup_alter_eq.
  - apply list_lookup_alter_ne. congruence.
Qed.

Lemma forEach_alter_lookup (f : Element -> Element) ns : forall (d : Document) j,
  (forall e, f (f e) = f e) ->
  forEach (fun n => alter f n) ns d !! j =
    if existsb (Nat.eqb j) ns then f <$> d !! j else d !! j.
Proof.
  induction ns as [|n ns IH]; intros d j Hf; [reflexivity|].
  unfold forEach in *. cbn [fold_left existsb]. rewrite IH by exact Hf.
  rewrite lookup_alter_eqb.
  destruct (Nat.eqb j n), (existsb (Nat.eqb j) ns), (d !! j);
    cbn; rewrite ?Hf; reflexivity.
Qed.

Lemma set_idem n v a : set n v (set n v a) = set n v a.
Proof. apply set_same, get_set_eq. Qed.

Lemma setAttribute_idem n v e : setAttribute n v (setAttribute n v e) = setAttribute n v e.
Proof. unfold setAttribute. cbn [classList attrs textContent]. now rewrite set_idem. Qed.

Lemma forEach_hidden_lookup p ns : forall (d : Document) j,
  forEach (fun pane d =>
             if Nat.eqb pane p then d
             else alter (setAttribute "aria-hidden" "true") pane d) ns d !! j =
    if existsb (Nat.eqb j) ns && negb (Nat.eqb j p)
    then setAttribute "aria-hidden" "true" <$> d !! j
    else d !! j.
Proof.
  induction ns as [|n ns IH]; intros d j; [reflexivity|].
  unfold forEach in *. cbn [fold_left existsb]. rewrite IH.
  destruct (Nat.eqb_spec n p) as [->|Hnp].
  - destruct (Nat.eqb_spec j p) as [->|Hjp]; [now rewrite !andb_false_r|reflexivity].
  - rewrite lookup_alter_eqb.
    destruct (Nat.eqb_spec j n) as [->|Hjn].
    + destruct (Nat.eqb_spec n p); [contradiction|].
      destruct (existsb (Nat.eqb n) ns), (d !! n); cbn;
        rewrite ?setAttribute_idem; reflexivity.
    + reflexivity.
Qed.

Lemma remove_remove t cl : remove t (remove t cl) = remove t cl.
Proof.
  apply remove_absent. rewrite contains_remove, String.eqb_refl. apply andb_false_r.
Qed.

Lemma remove_add t cl : remove t (add t cl) = remove t cl.
Proof.
  unfold add. destruct (contains cl t); [reflexivity|].
  unfold remove. rewrite List.filter_app. cbn [List.filter].
  rewrite String.eqb_refl. cbn [negb]. apply app_nil_r.
Qed.

Lemma add_add t cl : add t (add t cl) = add t cl.
Proof.
  unfold add at 1. now rewrite contains_add, String.eqb_refl, orb_true_r.
Qed.

(** [activateTab], element by element. *)
Lemma activateTab_lookup doc activeLink allLinks allPanes dataAttribute j :
  activateTab activeLink allLinks allPanes dataAttribute doc !! j =
    elementStep j activeLink allLinks allPanes
      (getElementById (targetId activeLink dataAttribute doc) doc) <$> doc !! j.
Proof.
  unfold activateTab. cbv zeta.
  set (d1 := forEach (fun tab => alter (classRemove "active") tab) allLinks doc).
  set (d2 := alter (classAdd "active") activeLink d1).
  set (d3 := forEach (fun pane => alter (classRemove "active") pane) allPanes d2).
  assert (Hrr : forall e, classRemove "active" (classRemove "active" e) =
                          classRemove "active" e).
  { intros e. unfold classRemove, withClasses. cbn [classList attrs textContent].
    now rewrite remove_remove. }
  assert (A3 : List.map attrs d3 = List.map attrs doc).
  { unfold d3. rewrite map_attrs_forEach by reflexivity.
    unfold d2. rewrite map_attrs_alter by reflexivity.
    apply map_attrs_forEach. reflexivity. }
  rewrite (targetId_attrs _ _ _ _ A3), (getElementById_attrs _ _ _ A3).
  assert (L3 : d3 !! j = elementStep j activeLink allLinks allPanes None <$> doc !! j).
  { unfold d3. rewrite forEach_alter_lookup by exact Hrr.
    unfold d2. rewrite lookup_alter_eqb.
    unfold d1. rewrite forEach_alter_lookup by exact Hrr.
    unfold elementStep.
    destruct (existsb (Nat.eqb j) allPanes), (Nat.eqb j activeLink),
             (existsb (Nat.eqb j) allLinks), (doc !! j); reflexivity. }
  destruct (getElementById _ doc) as [p|].
  - rewrite forEach_hidden_lookup, !lookup_alter_eqb, L3.
    unfold elementStep.
    destruct (existsb (Nat.eqb j) allPanes), (Nat.eqb j activeLink),
             (existsb (Nat.eqb j) allLinks), (Nat.eqb j p), (doc !! j); reflexivity.
  - exact L3.
Qed.

Lemma activateTab_length doc activeLink allLinks allPanes dataAttribute :
  length (activateTab activeLink allLinks allPanes dataAttribute doc) = length doc.
Proof.
  destruct (Nat.lt_trichotomy
              (length (activateTab activeLink allLinks allPanes dataAttribute doc))
              (length doc)) as [H | [H | H]]; [|exact H|].
  - apply lookup_lt_is_Some in H as [e He].
    pose proof (activateTab_lookup doc activeLink allLinks allPanes dataAttribute
                  (length (activateTab activeLink allLinks allPanes dataAttribute doc)))
      as HL.
    rewrite He in HL. rewrite (lookup_ge_None_2 _ _ (Nat.le_refl _)) in HL. discriminate.
  - apply lookup_lt_is_Some in H as [e He].
    pose proof (activateTab_lookup doc activeLink allLinks allPanes dataAttribute
                  (length doc)) as HL.
    rewrite He in HL. rewrite (lookup_ge_None_2 doc _ (Nat.le_refl _)) in HL. discriminate.
Qed.

(** X19: [activateTab] leaves alone every element that is not a link or a
    pane of the group, the clicked link, or the element the target
    identifier resolves to: such an element keeps its classes, attributes
    and text, and the document keeps its length. *)
Theorem activateTab_frame (doc : Document) (activeLink : nat)
  (allLinks allPanes : list nat) (dataAttribute : string) (j : nat)
  (Hlink : ~ In j allLinks) (Hpane : ~ In j allPanes) (Hclicked : j <> activeLink)
  (Htarget : getElementById (targetId activeLink dataAttribute doc) doc <> Some j) :
  activateTab activeLink allLinks allPanes dataAttribute doc !! j = doc !! j /\
  length (activateTab activeLink allLinks allPanes dataAttribute doc) = length doc.
Proof.
  split; [|apply activateTab_length].
  rewrite activateTab_lookup. unfold elementStep.
  rewrite (not_In_existsb _ _ Hlink), (not_In_existsb _ _ Hpane).
  destruct (Nat.eqb_spec j activeLink); [contradiction|].
  destruct (getElementById _ doc) as [p|].
  - destruct (Nat.eqb_spec j p) as [->|]; [congruence|].
    cbn [andb]. now destruct (doc !! j).
  - now destruct (doc !! j).
Qed.

Lemma activateTab_frame_witness :
  activateTab 1 [0; 1] [3; 4] "data-category" Examples.tabsPage !! 2 =
    Examples.tabsPage !! 2.
Proof.
  apply (proj1 (activateTab_frame Examples.tabsPage 1 [0; 1] [3; 4] "data-category" 2
                  ltac:(simpl; lia) ltac:(simpl; lia) ltac:(lia)
                  ltac:(vm_compute; discriminate))).
Defined.

(** X20: when the target identifier of the clicked link resolves to an
    element, after [activateTab] that element has [aria-hidden] [false] and
    every other pane of the group has [aria-hidden] [true]. *)
Theorem activateTab_aria_hidden (doc : Document) (activeLink : nat)
  (allLinks allPanes : list nat) (dataAttribute : string) (p q : nat)
  (Hres : getElementById (targetId activeLink dataAttribute doc) doc = Some p)
  (Hq : In q allPanes) (Hrange : q < length doc) :
  attrAt (activateTab activeLink allLinks allPanes dataAttribute doc) p "aria-hidden" =
    Some "false" /\
  attrAt (activateTab activeLink allLinks allPanes dataAttribute doc) q "aria-hidden" =
    Some (if Nat.eqb q p then "false" else "true").
Proof.
  assert (Hp : attrAt (activateTab activeLink allLinks allPanes dataAttribute doc) p
                 "aria-hidden" = Some "false").
  { unfold attrAt. rewrite activateTab_lookup, Hres.
    apply getElementById_Some in Hres as [_ Hlt].
    apply lookup_lt_is_Some in Hlt as [e ->]. cbn [fmap option_fmap option_map].
    unfold elementStep. rewrite Nat.eqb_refl, andb_false_r.
    unfold getAttribute, setAttribute. cbn [attrs]. apply get_set_eq. }
  split; [exact Hp|].
  destruct (Nat.eqb_spec q p) as [->|Hne]; [exact Hp|].
  unfold attrAt. rewrite activateTab_lookup, Hres.
  apply lookup_lt_is_Some in Hrange as [e ->]. cbn [fmap option_fmap option_map].
  unfold elementStep. apply existsb_eqb_In in Hq. rewrite Hq.
  destruct (Nat.eqb_spec q p); [contradiction|]. cbn [andb negb].
  unfold getAttribute, setAttribute. cbn [attrs]. apply get_set_eq.
Qed.

Lemma activateTab_aria_hidden_witness :
  attrAt (activateTab 1 [0; 1; 2] [3; 4] "data-category" Examples.tabsPage) 4
    "aria-hidden" = Some "false" /\
  attrAt (activateTab 1 [0; 1; 2] [3; 4] "data-category" Examples.tabsPage) 3
    "aria-hidden" = Some "true".
Proof.
  apply (activateTab_aria_hidden Examples.tabsPage 1 [0; 1; 2] [3; 4] "data-category" 4 3
           eq_refl ltac:(simpl; lia) ltac:(simpl; lia)).
Defined.

Lemma filter_none {A} (p : A -> bool) l :
  (forall x, In x l -> p x = false) -> List.filter p l = [].
Proof.
  induction l as [|x l IH]; intros H; [reflexivity|].
  cbn [List.filter]. rewrite H by (now left). apply IH.
  intros y Hy. apply H. now right.
Qed.

(** X21: when the target identifier of the clicked link matches no element
    of the document, [activateTab] changes no attribute of any element (a
    pane that was exposed keeps the [aria-hidden] it had) while every pane
    of the group loses the active marker. *)
Theorem activateTab_no_match (doc : Document) (activeLink : nat)
  (allLinks allPanes : list nat) (dataAttribute : string)
  (Hres : getElementById (targetId activeLink dataAttribute doc) doc = None) :
  List.map attrs (activateTab activeLink allLinks allPanes dataAttribute doc) =
    List.map attrs doc /\
  activeIn (activateTab activeLink allLinks allPanes dataAttribute doc) allPanes = [].
Proof.
  split.
  - apply list_eq. intros j. rewrite !list_lookup_fmap, activateTab_lookup, Hres.
    destruct (doc !! j) as [e|]; [|reflexivity]. cbn [fmap option_fmap option_map].
    f_equal. unfold elementStep.
    destruct (existsb (Nat.eqb j) allPanes), (Nat.eqb j activeLink),
             (existsb (Nat.eqb j) allLinks); reflexivity.
  - unfold activeIn.
    assert (H : forall q, In q allPanes ->
              isActive (activateTab activeLink allLinks allPanes dataAttribute doc) q =
                false).
    { intros q Hq. unfold isActive. rewrite activateTab_lookup, Hres.
      destruct (doc !! q) as [e|]; [|reflexivity]. cbn [fmap option_fmap option_map].
      unfold elementStep. apply existsb_eqb_In in Hq. rewrite Hq.
      rewrite hasClass_classRemove, String.eqb_refl. apply andb_false_r. }
    apply filter_none. exact H.
Qed.

Lemma activateTab_no_match_witness :
  List.map attrs (activateTab 2 [0; 1; 2] [3; 4] "data-category" Examples.tabsPage) =
    List.map attrs Examples.tabsPage /\
  activeIn (activateTab 2 [0; 1; 2] [3; 4] "data-category" Examples.tabsPage) [3; 4] = [].
Proof.
  apply (activateTab_no_match Examples.tabsPage 2 [0; 1; 2] [3; 4] "data-category" eq_refl).
Defined.

(** *** Clicking again *)

Lemma getElementById_ids t (d d' : Document) :
  length d' = length d -> (forall n, idAt d' n = idAt d n) ->
  getElementById t d' = getElementById t d.
Proof.
  intros Hlen H. unfold getElementById. rewrite Hlen.
  apply find_pointwise. intros n.
  pose proof (hasId_idAt t d n) as H1. pose proof (hasId_idAt t d' n) as H2.
  rewrite H in H2.
  destruct (match d' !! n with Some e => hasId t e | None => false end),
           (match d !! n with Some e => hasId t e | None => false end); auto.
  - symmetry. apply H1, H2. reflexivity.
  - apply H2, H1. reflexivity.
Qed.

Lemma elementStep_getAttribute name j a ls ps r e :
  name <> "aria-hidden" ->
  getAttribute name (elementStep j a ls ps r e) = getAttribute name e.
Proof.
  intros Hne. unfold elementStep.
  destruct (existsb (Nat.eqb j) ls), (Nat.eqb j a), (existsb (Nat.eqb j) ps), r as [p|];
    try destruct (Nat.eqb j p);
    unfold getAttribute, setAttribute, classAdd, classRemove, withClasses;
    cbn [andb negb attrs]; rewrite ?get_set_ne by congruence; reflexivity.
Qed.

Lemma classRemove_classRemove t e : classRemove t (classRemove t e) = classRemove t e.
Proof.
  unfold classRemove, withClasses. cbn [classList attrs textContent].
  now rewrite remove_remove.
Qed.

Lemma classRemove_classAdd t e : classRemove t (classAdd t e) = classRemove t e.
Proof.
  unfold classRemove, classAdd, withClasses. cbn [classList attrs textContent].
  now rewrite remove_add.
Qed.

Lemma classAdd_classAdd t e : classAdd t (classAdd t e) = classAdd t e.
Proof.
  unfold classAdd, withClasses. cbn [classList attrs textContent].
  now rewrite add_add.
Qed.

Lemma classAdd_setAttribute t n v e :
  classAdd t (setAttribute n v e) = setAttribute n v (classAdd t e).
Proof. reflexivity. Qed.

Lemma classRemove_setAttribute t n v e :
  classRemove t (setAttribute n v e) = setAttribute n v (classRemove t e).
Proof. reflexivity. Qed.

Ltac class_normal :=
  repeat first
    [ rewrite classAdd_setAttribute
    | rewrite classRemove_setAttribute
    | rewrite classRemove_classRemove
    | rewrite classRemove_classAdd
    | rewrite classAdd_classAdd
    | rewrite setAttribute_idem ].

Lemma elementStep_idem j a ls ps r e :
  elementStep j a ls ps r (elementStep j a ls ps r e) = elementStep j a ls ps r e.
Proof.
  unfold elementStep.
  destruct (existsb (Nat.eqb j) ls), (Nat.eqb j a), (existsb (Nat.eqb j) ps), r as [p|];
    try destruct (Nat.eqb j p);
    cbv beta iota zeta delta [andb negb]; class_normal; reflexivity.
Qed.

Lemma activateTab_idem doc activeLink allLinks allPanes dataAttribute :
  dataAttribute <> "aria-hidden" ->
  activateTab activeLink allLinks allPanes dataAttribute
    (activateTab activeLink allLinks allPanes dataAttribute doc) =
  activateTab activeLink allLinks allPanes dataAttribute doc.
Proof.
  intros Hne.
  set (doc' := activateTab activeLink allLinks allPanes dataAttribute doc).
  assert (Ht : targetId activeLink dataAttribute doc' =
               targetId activeLink dataAttribute doc).
  { unfold targetId, doc'. rewrite activateTab_lookup.
    destruct (doc !! activeLink) as [e|]; [|reflexivity].
    cbn [fmap option_fmap option_map]. now rewrite elementStep_getAttribute. }
  assert (Hid : forall n, idAt doc' n = idAt doc n).
  { intros n. unfold idAt, doc'. rewrite activateTab_lookup.
    destruct (doc !! n) as [e|]; [|reflexivity].
    cbn [fmap option_fmap option_map]. unfold elementId.
    now rewrite elementStep_getAttribute by discriminate. }
  apply list_eq. intros j. rewrite activateTab_lookup, Ht.
  rewrite (getElementById_ids _ doc doc') by (try apply activateTab_length; exact Hid).
  unfold doc'. rewrite activateTab_lookup.
  destruct (doc !! j) as [e|]; [|reflexivity].
  cbn [fmap option_fmap option_map]. f_equal. apply elementStep_idem.
Qed.

(** X22: a second click on the same tab link changes nothing: the document
    after two clicks is the document after one, in the classes, the
    attributes and the text of every element.  (The data attribute that
    names the target is not [aria-hidden]; the two groups of the page use
    [data-category] and [data-subcategory].)  In a group whose links
    selector or panes selector finds nothing no listener is bound, and a
    click changes nothing at all. *)
Theorem click_again (doc : Document) (link : nat) (tabLinks tabPanes : list nat)
  (dataAttribute : string)
  (Hattr : dataAttribute <> "aria-hidden") :
  click link tabLinks tabPanes dataAttribute
    (click link tabLinks tabPanes dataAttribute doc) =
  click link tabLinks tabPanes dataAttribute doc /\
  (tabLinks = [] \/ tabPanes = [] ->
   click link tabLinks tabPanes dataAttribute doc = doc).
Proof.
  split.
  - unfold click. destruct tabLinks as [|l ls]; [reflexivity|].
    destruct tabPanes as [|p ps]; [reflexivity|].
    destruct (existsb (Nat.eqb link) (l :: ls)); [|reflexivity].
    now apply activateTab_idem.
  - unfold click. intros [-> | ->]; [reflexivity|].
    now destruct tabLinks.
Qed.

Lemma click_again_witness :
  click 1 [0; 1; 2] [3; 4] "data-category"
    (click 1 [0; 1; 2] [3; 4] "data-category" Examples.tabsPage) =
  click 1 [0; 1; 2] [3; 4] "data-category" Examples.tabsPage /\
  click 1 [0; 1; 2] [] "data-category" Examples.tabsPage = Examples.tabsPage.
Proof.
  split.
  - apply (proj1 (click_again Examples.tabsPage 1 [0; 1; 2] [3; 4] "data-category"
                    ltac:(discriminate))).
  - apply (proj2 (click_again Examples.tabsPage 1 [0; 1; 2] [] "data-category"
                    ltac:(discriminate))).
    now right.
Defined.

End TabsEventFacts.

(** ** Utility functions *)
Section UtilsFacts.
Import Dom Utils.

Lemma split_cons sep s : exists h t, split sep s = h :: t.
Proof.
  induction s as [|c s IH]; cbn [split]; [eauto|].
  destruct (Ascii.eqb c sep); [eauto|].
  destruct IH as (h & t & ->). eauto.
Qed.

Lemma split_app sep a b :
  split sep (String.append a (String sep b)) = split sep a ++ split sep b.
Proof.
  induction a as [|c a IH]; cbn [String.append split].
  - now rewrite Ascii.eqb_refl.
  - destruct (Ascii.eqb c sep); [now rewrite IH|].
    rewrite IH. destruct (split_cons sep a) as (h & t & ->). reflexivity.
Qed.

Lemma split_no_slash seg : hasSlash seg = false -> split "/" seg = [seg].
Proof.
  induction seg as [|c seg IH]; cbn [hasSlash split]; [reflexivity|].
  intros H. apply orb_false_iff in H as [Hc Hs]. rewrite Hc, (IH Hs). reflexivity.
Qed.

(** X23: the current page is the part of the path after its last [/], and
    [index.html] when that part is empty (the path ends in [/], or is empty). *)
Theorem currentPage_last_segment (dir seg : string)
  (Hseg : hasSlash seg = false) :
  currentPage (String.append dir (String "/" seg)) =
    (if String.eqb seg "" then "index.html" else seg) /\
  currentPage seg = (if String.eqb seg "" then "index.html" else seg).
Proof.
  unfold currentPage. rewrite split_app, (split_no_slash seg Hseg).
  rewrite last_snoc. split; reflexivity.
Qed.

Lemma currentPage_last_segment_witness :
  currentPage "/portfolio/about.html" = "about.html" /\ currentPage "/portfolio/" = "index.html".
Proof.
  split.
  - apply (proj1 (currentPage_last_segment "/portfolio" "about.html" eq_refl)).
  - apply (proj1 (currentPage_last_segment "/portfolio" "" eq_refl)).
Defined.

(** X24: after [setActiveNavLink], a navigation link carries the active
    marker exactly when its [href] attribute equals the current page,
    whatever the markup had marked; its other classes and its attributes
    are as they were. *)
Theorem setActiveNavLink_marks (pathname : string) (navLinks : list Element)
  (i : nat) (link : Element)
  (Hi : navLinks !! i = Some link) :
  exists link', setActiveNavLink pathname navLinks !! i = Some link' /\
    hasClass "active" link' =
      match getAttribute "href" link with
      | Some href => String.eqb href (currentPage pathname)
      | None => false
      end /\
    attrs link' = attrs link /\
    forall u, u <> "active" -> hasClass u link' = hasClass u link.
Proof.
  unfold setActiveNavLink. rewrite list_lookup_fmap, Hi.
  cbn [fmap option_fmap option_map]. eexists. split; [reflexivity|].
  assert (Hr : hasClass "active" (classRemove "active" link) = false)
    by (rewrite hasClass_classRemove, String.eqb_refl; apply andb_false_r).
  assert (Ha : hasClass "active" (classAdd "active" (classRemove "active" link)) = true)
    by (rewrite hasClass_classAdd, String.eqb_refl; apply orb_true_r).
  assert (Hu : forall u, u <> "active" ->
            hasClass u (classRemove "active" link) = hasClass u link).
  { intros u Hne. rewrite hasClass_classRemove.
    destruct (String.eqb_spec u "active"); [contradiction|]. apply andb_true_r. }
  assert (Hv : forall u, u <> "active" ->
            hasClass u (classAdd "active" (classRemove "active" link)) = hasClass u link).
  { intros u Hne. rewrite hasClass_classAdd, (Hu u Hne).
    destruct (String.eqb_spec u "active"); [contradiction|]. apply orb_false_r. }
  destruct (getAttribute "href" link) as [href|]; [|auto].
  destruct (String.eqb href (currentPage pathname)); auto.
Qed.

Lemma setActiveNavLink_marks_witness :
  exists link',
    setActiveNavLink "/site/about.html"
      [ mkElement ["nav-link"; "active"] [("href", "index.html")] "Home";
        mkElement ["nav-link"] [("href", "about.html")] "About" ] !! 0 = Some link' /\
    hasClass "active" link' = false.
Proof.
  destruct (setActiveNavLink_marks "/site/about.html"
              [ mkElement ["nav-link"; "active"] [("href", "index.html")] "Home";
                mkElement ["nav-link"] [("href", "about.html")] "About" ]
              0 _ eq_refl) as (link' & H1 & H2 & _).
  exists link'. split; [exact H1 | exact H2].
Defined.

(** X25: after the scroll listener of the back-to-top button has run, the
    button carries [show] exactly when the page is scrolled by more than
    300 pixels, whatever it carried before; its other classes are kept. *)
Theorem scrollHandler_shows (pageYOffset : Z) (btn : Element) :
  (hasClass "show" (scrollHandler pageYOffset btn) = true <-> (pageYOffset > 300)%Z) /\
  forall u, u <> "show" -> hasClass u (scrollHandler pageYOffset btn) = hasClass u btn.
Proof.
  unfold scrollHandler, hasClass, classToggleForce, withClasses. cbn [classList].
  split.
  - rewrite contains_toggle_force. unfold config.scrollThreshold.
    rewrite Z.gtb_gt. reflexivity.
  - intros u Hne. unfold toggle_force.
    destruct (pageYOffset >? config.scrollThreshold)%Z.
    + rewrite contains_add. destruct (String.eqb_spec u "show"); [contradiction|].
      apply orb_false_r.
    + rewrite contains_remove. destruct (String.eqb_spec u "show"); [contradiction|].
      apply andb_true_r.
Qed.

End UtilsFacts.

(** ** Animation controllers *)
Section AnimationFacts.
Import Dom Animation.

(** An observer callback that reveals the intersecting targets, target by
    target. *)
Lemma callback_lookup (f : Target -> Target) entries : forall (ts : list Target) i,
  (forall t, f (f t) = f t) ->
  fold_left (fun ts entry => if isIntersecting entry then alter f (target entry) ts else ts)
    entries ts !! i =
  if intersects entries i then f <$> ts !! i else ts !! i.
Proof.
  induction entries as [|entry entries IH]; intros ts i Hf; [reflexivity|].
  unfold intersects in *. cbn [fold_left existsb]. rewrite IH by exact Hf.
  destruct (isIntersecting entry); cbn [andb orb]; [|reflexivity].
  rewrite lookup_alter_eqb, (Nat.eqb_sym i (target entry)).
  destruct (Nat.eqb (target entry) i), (existsb _ entries), (ts !! i);
    cbn; rewrite ?Hf; reflexivity.
Qed.

Lemma revealSkill_idem t : revealSkill (revealSkill t) = revealSkill t.
Proof.
  unfold revealSkill, unobserve, setStyle, targetWidth. cbn [node style observed].
  now rewrite set_idem.
Qed.

Lemma revealElement_idem t : revealElement (revealElement t) = revealElement t.
Proof.
  unfold revealElement, unobserve, setStyle. cbn [node style observed].
  now rewrite set_set_idem by discriminate.
Qed.

(** X26: once the skill bars are set up and the observer has called back
    with any entries, the width assigned to a bar is the one its
    [data-target] attribute names (90% when the attribute is missing or
    empty) if some entry reported it as intersecting, and 0% otherwise; it
    is still observed exactly when no entry reported it as intersecting. *)
Theorem skill_bar_width (skillLevels : list Target) (entries : list Entry)
  (i : nat) (skill : Target)
  (Hi : skillLevels !! i = Some skill) :
  styleAt (skillCallback entries (setupSkillAnimations skillLevels)) i "width" =
    Some (if intersects entries i then targetWidth skill else "0%") /\
  observed <$> skillCallback entries (setupSkillAnimations skillLevels) !! i =
    Some (negb (intersects entries i)).
Proof.
  unfold styleAt, skillCallback. rewrite callback_lookup by apply revealSkill_idem.
  unfold setupSkillAnimations. rewrite list_lookup_fmap, Hi.
  destruct (intersects entries i); cbn [fmap option_fmap option_map negb];
    unfold revealSkill, unobserve, observe, setStyle, targetWidth;
    cbn [node style observed]; rewrite get_set_eq; split; reflexivity.
Qed.

Lemma skill_bar_width_witness :
  styleAt
    (skillCallback [mkEntry 1 true; mkEntry 0 false]
       (setupSkillAnimations
          [ mkTarget (mkElement ["skill-level"] [("data-target", "75%")] "") [] false;
            mkTarget (mkElement ["skill-level"] [] "") [] false ]))
    1 "width" = Some "90%".
Proof.
  apply (proj1 (skill_bar_width
                  [ mkTarget (mkElement ["skill-level"] [("data-target", "75%")] "") [] false;
                    mkTarget (mkElement ["skill-level"] [] "") [] false ]
                  [mkEntry 1 true; mkEntry 0 false] 1 _ eq_refl)).
Defined.

(** X27: once the animated blocks are set up and the observer has called
    back with any entries, a block is opaque and in place if some entry
    reported it as intersecting, and transparent and shifted by 20 pixels
    otherwise; the transition is set in both cases, and the block is still
    observed exactly when no entry reported it as intersecting. *)
Theorem block_reveal (animatedElements : list Target) (entries : list Entry)
  (i : nat) (element : Target)
  (Hi : animatedElements !! i = Some element) :
  let after := animationCallback entries (setupScrollAnimations animatedElements) in
  styleAt after i "opacity" = Some (if intersects entries i then "1" else "0") /\
  styleAt after i "transform" =
    Some (if intersects entries i then "translateY(0)" else "translateY(20px)") /\
  styleAt after i "transition" = Some "opacity 0.6s ease, transform 0.6s ease" /\
  observed <$> after !! i = Some (negb (intersects entries i)).
Proof.
  cbv zeta. unfold styleAt, animationCallback.
  rewrite callback_lookup by apply revealElement_idem.
  unfold setupScrollAnimations. rewrite list_lookup_fmap, Hi.
  destruct (intersects entries i); cbn [fmap option_fmap option_map negb];
    unfold revealElement, unobserve, observe, setStyle;
    cbn [node style observed];
    repeat split;
    repeat first [ rewrite get_set_eq | rewrite get_set_ne by discriminate ];
    reflexivity.
Qed.

Lemma block_reveal_witness :
  styleAt
    (animationCallback [mkEntry 0 true]
       (setupScrollAnimations [mkTarget Examples.plain [] false; mkTarget Examples.plain [] false]))
    0 "opacity" = Some "1".
Proof.
  apply (proj1 (block_reveal [mkTarget Examples.plain [] false; mkTarget Examples.plain [] false]
                  [mkEntry 0 true] 0 _ eq_refl)).
Defined.

End AnimationFacts.

(** ** Main application initialization *)
Section AppFacts.
Import App.

Lemma runCalls_returning pre : forall rest a,
  Forall (fun c => thrown c = None) pre ->
  runCalls (pre ++ rest) a =
    runCalls rest
      (mkApp (components a ++ List.map name (List.filter isComponent pre))
         (console a) (windowListeners a ++ concat (List.map windowEvents pre))).
Proof.
  induction pre as [|c pre IH]; intros rest a H.
  - cbn [app List.filter List.map concat]. rewrite !app_nil_r. now destruct a.
  - inversion H as [|? ? Hc Hpre]; subst. cbn [app runCalls]. rewrite Hc.
    rewrite IH by exact Hpre. cbn [List.filter List.map concat].
    cbn [components console windowListeners]. rewrite <- (app_assoc (windowListeners a)).
    destruct (isComponent c); cbn [List.map].
    + now rewrite <- app_assoc.
    + reflexivity.
Qed.

Lemma calls_windowEvents backToTopBtn outcome c ev :
  In c (calls backToTopBtn outcome) -> In ev (windowEvents c) ->
  ev = "scroll" \/ ev = "resize".
Proof.
  unfold calls. intros Hc Hev.
  repeat (destruct Hc as [<-|Hc]; [cbn [windowEvents] in Hev|]);
    try destruct backToTopBtn; try (destruct Hev as [<-|[]]; auto; fail);
    try (destruct Hev; fail); destruct Hc.
Qed.

(** X28: when a call of [init] throws, the components stored are those
    constructed before it and nothing after it runs: no later component is
    constructed, the window listeners are those the earlier calls added
    (the scroll listener of [initBackToTop], the resize listener of the
    sidebar) and none of [setupPerformanceMonitoring], and the console
    holds the failure line with the exception and nothing else. *)
Theorem init_aborts (backToTopBtn : bool) (outcome : string -> option string)
  (process : Process) (pre post : list Call) (c : Call) (e : string)
  (Hcalls : calls backToTopBtn outcome = pre ++ c :: post)
  (Hpre : Forall (fun c => thrown c = None) pre)
  (Hthrow : thrown c = Some e) :
  init backToTopBtn outcome process =
    mkApp (List.map name (List.filter isComponent pre))
      [Error "Failed to initialize portfolio app:" e]
      (concat (List.map windowEvents pre)) /\
  (forall ev, In ev (windowListeners (init backToTopBtn outcome process)) ->
     ev = "scroll" \/ ev = "resize").
Proof.
  assert (Heq : init backToTopBtn outcome process =
                mkApp (List.map name (List.filter isComponent pre))
                  [Error "Failed to initialize portfolio app:" e]
                  (concat (List.map windowEvents pre))).
  { unfold init. rewrite Hcalls, (runCalls_returning pre _ _ Hpre).
    cbn [runCalls]. rewrite Hthrow. reflexivity. }
  split; [exact Heq|]. rewrite Heq. cbn [windowListeners]. intros ev Hev.
  apply in_concat in Hev as (l & Hl & Hev). apply in_map_iff in Hl as (c' & <- & Hc').
  apply (calls_windowEvents backToTopBtn outcome c' ev); [|exact Hev].
  rewrite Hcalls. apply in_or_app. now left.
Qed.

Lemma init_aborts_witness :
  init true (fun n => if String.eqb n "modal" then Some "TypeError" else None)
    ProcessUndefined =
    mkApp ["sidebar"; "carousel"] [Error "Failed to initialize portfolio app:" "TypeError"]
      ["scroll"; "resize"].
Proof.
  apply (proj1
    (init_aborts true (fun n => if String.eqb n "modal" then Some "TypeError" else None)
       ProcessUndefined
       [ mkCall "setCurrentYear" false None []; mkCall "setActiveNavLink" false None [];
         mkCall "initBackToTop" false None ["scroll"]; mkCall "optimizeImages" false None [];
         mkCall "sidebar" true None ["resize"]; mkCall "carousel" true None [] ]
       [ mkCall "contactForm" true None []; mkCall "animations" true None [];
         mkCall "tabs" true None [] ]
       (mkCall "modal" true (Some "TypeError") []) "TypeError"
       eq_refl ltac:(repeat constructor) eq_refl)).
Defined.

(** X29: when no utility and no constructor throws, all six components are
    stored, in the order of construction; the page-wide error listener is
    installed and the success line is logged exactly when [process.env] can
    be read, and otherwise the failure line is logged instead. *)
Theorem init_all_built (backToTopBtn : bool) (outcome : string -> option string)
  (process : Process)
  (Hquiet : forall n, outcome n = None) :
  components (init backToTopBtn outcome process) = componentNames /\
  (In "error" (windowListeners (init backToTopBtn outcome process)) <->
     exists nodeEnv, process = Env nodeEnv) /\
  (In (Log "Portfolio app initialized successfully")
      (console (init backToTopBtn outcome process)) <->
     exists nodeEnv, process = Env nodeEnv) /\
  ((exists e, In (Error "Failed to initialize portfolio app:" e)
                (console (init backToTopBtn outcome process))) <->
     ~ exists nodeEnv, process = Env nodeEnv).
Proof.
  unfold init, calls. rewrite !Hquiet.
  cbn [runCalls thrown isComponent name windowEvents components console windowListeners app].
  assert (Habsent : forall p e ls, (forall nodeEnv, p <> Env nodeEnv) -> ~ In "error" ls ->
            [ "sidebar"; "carousel"; "modal"; "contactForm"; "animations"; "tabs" ] =
              componentNames /\
            (In "error" ls <-> exists nodeEnv, p = Env nodeEnv) /\
            (In (Log "Portfolio app initialized successfully")
                [Error "Failed to initialize portfolio app:" e] <->
             exists nodeEnv, p = Env nodeEnv) /\
            ((exists e', In (Error "Failed to initialize portfolio app:" e')
                           [Error "Failed to initialize portfolio app:" e]) <->
             ~ exists nodeEnv, p = Env nodeEnv)).
  { intros p e ls Hp Hls. split; [reflexivity|].
    split; [split; [intros H; destruct (Hls H) | intros [n Hn]; destruct (Hp n Hn)]|].
    split; [split; [intros [H|[]]; discriminate | intros [n Hn]; destruct (Hp n Hn)]|].
    split; [intros _ [n Hn]; destruct (Hp n Hn) | intros _; exists e; left; reflexivity]. }
  assert (Hpresent : forall nodeEnv ls, In "error" ls ->
            [ "sidebar"; "carousel"; "modal"; "contactForm"; "animations"; "tabs" ] =
              componentNames /\
            (In "error" ls <-> exists n, Env nodeEnv = Env n) /\
            (In (Log "Portfolio app initialized successfully")
                [Log "Portfolio app initialized successfully"] <->
             exists n, Env nodeEnv = Env n) /\
            ((exists e', In (Error "Failed to initialize portfolio app:" e')
                           [Log "Portfolio app initialized successfully"]) <->
             ~ exists n, Env nodeEnv = Env n)).
  { intros nodeEnv ls Hls. split; [reflexivity|].
    split; [split; [eauto | intros _; exact Hls]|].
    split; [split; [eauto | intros _; left; reflexivity]|].
    split; [intros [e [H|[]]]; discriminate | intros H; exfalso; apply H; eauto]. }
  destruct backToTopBtn, process as [| |[v|]]; cbn [setupPerformanceMonitoring];
    try destruct (String.eqb v "development");
    cbn [components console windowListeners]; cbn [app];
    first
      [ apply Habsent;
        [ discriminate
        | cbn [In]; intros H; repeat (destruct H as [H|H]; [discriminate|]); destruct H ]
      | apply Hpresent; cbn [In]; repeat first [left; reflexivity | right] ].
Qed.

Lemma init_all_built_witness :
  components (init false (fun _ => None) ProcessUndefined) = componentNames.
Proof.
  apply (proj1 (init_all_built false (fun _ => None) ProcessUndefined ltac:(reflexivity))).
Defined.

End AppFacts.
